(** * concat-md: the concatenation engine of [src/index.ts]

    A shallow embedding of [gitHubLink] and of the class
    [MarkDownConcatenator] (title derivation, heading-level rewriting,
    link rewriting, the two-pass driver), followed by the properties of
    the design document that are settled against it.

    JavaScript strings are sequences of UTF-16 code units; they are
    modelled as [list N].  The regular expressions of the source carry no
    [u] flag, so they work on code units as well. *)

From Stdlib Require Import Ascii String.
From stdpp Require Import base numbers list strings pretty gmap.

Abbreviation str := (list N).

(** String literals of the development: the code units of an ASCII text. *)
Definition lit (s : string) : str :=
  N_of_ascii <$> list_ascii_of_string s.

Definition LF : N := 10%N.
Definition SPACE : N := 32%N.
Definition QUOTE : N := 34%N.
Definition HASH : N := 35%N.
Definition HYPHEN : N := 45%N.

(** ** Character classes of ECMAScript regular expressions *)

Module Char.
Local Open Scope N_scope.

Definition between (lo hi c : N) : bool := (lo <=? c) && (c <=? hi).

(** [LineTerminator]: what [^] looks behind for under the [m] flag. *)
Definition isLineTerminator (c : N) : bool :=
  (c =? 0x0A) || (c =? 0x0D) || (c =? 0x2028) || (c =? 0x2029).

(** [\s], and the characters removed by [String.prototype.trim]:
    [WhiteSpace] and [LineTerminator]. *)
Definition isWhiteSpace (c : N) : bool :=
  (c =? 0x09) || (c =? 0x0B) || (c =? 0x0C) || (c =? 0x20) || (c =? 0xA0)
  || (c =? 0x1680) || between 0x2000 0x200A c || (c =? 0x202F)
  || (c =? 0x205F) || (c =? 0x3000) || (c =? 0xFEFF)
  || isLineTerminator c.

Definition isUpper (c : N) : bool := between 65 90 c.
Definition isLower (c : N) : bool := between 97 122 c.
Definition isDigit (c : N) : bool := between 48 57 c.

(** [\w] is [[A-Za-z0-9_]]. *)
Definition isWord (c : N) : bool :=
  isUpper c || isLower c || isDigit c || (c =? 95).

(** The class [[\w\- ]] whose complement [gitHubLink] deletes. *)
Definition isLinkChar (c : N) : bool :=
  isWord c || (c =? 45) || (c =? 32).

(** What remains in a finished slug: [[a-z0-9_-]]. *)
Definition isSlugChar (c : N) : bool :=
  isLower c || isDigit c || (c =? 95) || (c =? 45).
End Char.

(** ** String primitives *)

(** Removal of a trailing run: [trimEnd], and the replacement of
    [/-+$/] by the empty string. *)
Fixpoint stripEnd (p : N → bool) (s : str) : str :=
  match s with
  | [] => []
  | c :: rest =>
      match stripEnd p rest with
      | [] => if p c then [] else [c]
      | kept => c :: kept
      end
  end.

Fixpoint stripStart (p : N → bool) (s : str) : str :=
  match s with
  | [] => []
  | c :: rest => if p c then stripStart p rest else s
  end.

(** [String.prototype.trim]. *)
Definition trim (s : str) : str :=
  stripEnd Char.isWhiteSpace (stripStart Char.isWhiteSpace s).

(** [s.startsWith(p)]. *)
Fixpoint startsWith (p s : str) : bool :=
  match p, s with
  | [], _ => true
  | _ :: _, [] => false
  | a :: p', b :: s' => (a =? b)%N && startsWith p' s'
  end.

(** [s.includes(p)]. *)
Fixpoint includes (p s : str) : bool :=
  startsWith p s || match s with [] => false | _ :: s' => includes p s' end.

(** [s.indexOf(c)] for a one-character needle; [None] stands for -1. *)
Fixpoint indexOf (c : N) (s : str) : option nat :=
  match s with
  | [] => None
  | d :: rest => if (d =? c)%N then Some 0 else S <$> indexOf c rest
  end.

(** [s.split(c)] for a one-character separator: never an empty array. *)
Fixpoint split (c : N) (s : str) : list str :=
  match s with
  | [] => [[]]
  | d :: rest =>
      if (d =? c)%N then [] :: split c rest
      else match split c rest with
           | [] => [[d]]
           | w :: ws => (d :: w) :: ws
           end
  end.

(** [parts.join(j)]. *)
Fixpoint joinWith (j : str) (parts : list str) : str :=
  match parts with
  | [] => []
  | [p] => p
  | p :: rest => p ++ j ++ joinWith j rest
  end.

(** Truthiness of a string value. *)
Definition truthy (s : str) : bool :=
  match s with [] => false | _ => true end.

(** ** Exceptions *)

Inductive Exn : Type :=
  | RangeError (msg : str)
  | TypeError (msg : str)
  | Error (msg : str).

Inductive result (A : Type) : Type :=
  | Ok (a : A)
  | Throw (e : Exn).
Arguments Ok {A} a.
Arguments Throw {A} e.

#[global] Instance result_ret : MRet result := λ A, Ok.
#[global] Instance result_bind : MBind result := λ A B k m,
  match m with
  | Ok a => k a
  | Throw e => Throw e
  end.

(** [xs.forEach(x => ...)] over a body that updates the captured state
    and may throw. *)
Fixpoint forEach {A S} (step : S → A → result S) (xs : list A) (s : S)
  : result S :=
  match xs with
  | [] => Ok s
  | x :: rest => s' ← step s x; forEach step rest s'
  end.

(** ** What the module imports

    [toLowerCase] is the built-in of the language; [sep], [join],
    [relative], [dirname], [basename] and [extname] come from Node's
    [path]; [startCase] is lodash's; [transformLinks] is the package
    transform-markdown-links, whose callback maps a link target to its
    replacement; [transform] is doctoc's, called with the content and the
    maximal heading level, returning the fields [transformed] and [data].
    [maxStringLength] is the longest string the engine makes. *)

Class Imports := {
  maxStringLength : Z;
  toLowerCase : str → str;
  sep : N;
  join : str → str → str;
  relative : str → str → str;
  dirname : str → str;
  basename : str → str → str;
  extname : str → str;
  startCase : str → str;
  transformLinks : str → (str → str) → str;
  transform : str → Z → bool * str;
}.

(** The two facts about [toLowerCase] the development relies on: its
    result holds no capital Latin letter, and a text of lower-case Latin
    letters, digits, underscores and hyphens is left as it is. *)
Class LowerCaseLaws (I : Imports) : Prop := {
  lower_no_upper : ∀ s c, c ∈ toLowerCase s → Char.isUpper c = false;
  lower_slug : ∀ s, Forall (λ c, Char.isSlugChar c = true) s → toLowerCase s = s;
}.

(** ** Data *)

(** A value of the front matter, as far as the engine looks at it: a
    string, or a value of another kind (a number, a boolean, a date, a
    list, a mapping, [null]) with what a condition and a template literal
    make of it. *)
Inductive Value :=
  | VString (s : str)
  | VOther (truthy : bool) (text : str).

(** Truthiness of a value. *)
Definition truthyValue (v : Value) : bool :=
  match v with
  | VString s => truthy s
  | VOther t _ => t
  end.

(** A value inside a template literal. *)
Definition toText (v : Value) : str :=
  match v with
  | VString s => s
  | VOther _ text => text
  end.

(** A file as [getFileDetails] hands it over: its path, and the
    [attributes] and [body] that front-matter split its content into. *)
Record File := {
  path : str;
  attributes : gmap str Value;
  body : str;
}.

(** The values of [fileTitleIndex]; the title of a file may be a value
    of its front matter. *)
Module Entry.
Record t := { title : Value; level : Z; md : str }.
End Entry.

(** [ConcatOptions], without the glob patterns [ignore] and [include]
    that only file discovery reads; [None] is a property left out. *)
Module Options.
Record t := {
  title : option str;
  toc : option bool;
  tocLevel : option Z;
  decreaseTitleLevels : option bool;
  startTitleLevelAt : option Z;
  joinString : option str;
  titleKey : option str;
  fileNameAsTitle : option bool;
  dirNameAsTitle : option bool;
}.

Definition none : t :=
  {| title := None; toc := None; tocLevel := None;
     decreaseTitleLevels := None; startTitleLevelAt := None;
     joinString := None; titleKey := None;
     fileNameAsTitle := None; dirNameAsTitle := None |}.
End Options.

(** The fields of [MarkDownConcatenator] that the constructor sets and
    nothing changes afterwards. *)
Record Config := {
  dir : str;
  title : option str;
  toc : bool;
  tocLevel : Z;
  decreaseTitleLevels : bool;
  startTitleLevelAt : Z;
  joinString : str;
  titleKey : option str;
  fileNameAsTitle : bool;
  dirNameAsTitle : bool;
}.

(** The two fields that [addTitle] updates. *)
Record Titles := {
  visitedDirs : gset str;
  fileTitleIndex : gmap str Entry.t;
}.

Definition noTitles : Titles :=
  {| visitedDirs := ∅; fileTitleIndex := ∅ |}.

(** The constructor. *)
Definition new (dir : str) (o : Options.t) : Config :=
  {| dir := dir;
     title := Options.title o;
     toc := default false (Options.toc o);
     tocLevel := default 3%Z (Options.tocLevel o);
     decreaseTitleLevels := default false (Options.decreaseTitleLevels o);
     startTitleLevelAt := default 1%Z (Options.startTitleLevelAt o);
     joinString :=
       match Options.joinString o with
       | Some joinString =>
           if truthy joinString then [LF] ++ joinString ++ [LF] else [LF]
       | None => [LF]
       end;
     titleKey := Options.titleKey o;
     fileNameAsTitle := default false (Options.fileNameAsTitle o);
     dirNameAsTitle := default false (Options.dirNameAsTitle o) |}.

(** ** [body.replace(/(^#+)/gm, "$1" + extra)]

    The scan of the global replacement, written as the automaton of the
    pattern: [LineStart] is a position where [^] holds, [InRun] is inside
    the match of [#+], [Inside] is anywhere else.  The replacement is
    issued when the run ends. *)

Inductive Position := LineStart | InRun | Inside.

Definition closeRun (extra : str) (p : Position) : str :=
  match p with InRun => extra | _ => [] end.

Fixpoint replaceHashRuns (extra : str) (p : Position) (s : str) : str :=
  match s with
  | [] => closeRun extra p
  | c :: rest =>
      if (c =? HASH)%N then
        c :: replaceHashRuns extra
               (match p with Inside => Inside | _ => InRun end) rest
      else
        closeRun extra p ++
        c :: replaceHashRuns extra
               (if Char.isLineTerminator c then LineStart else Inside) rest
  end.

Section Engine.
Context {I : Imports}.

(** ["#".repeat(count)]: a [RangeError] for a negative count and for a
    count above the longest string of the engine. *)
Definition repeatHash (count : Z) : result str :=
  if (count <? 0)%Z then
    Throw (RangeError (lit "Invalid count value: " ++ lit (pretty count)))
  else if (maxStringLength <? count)%Z then
    Throw (RangeError (lit "Invalid string length"))
  else Ok (replicate (Z.to_nat count) HASH).

(** ** [gitHubLink] *)

Definition gitHubLink (val : str) : str :=
  let value := val in
  stripEnd (λ c, (c =? HYPHEN)%N)
    ((λ c, if Char.isWhiteSpace c then HYPHEN else c) <$>
       List.filter Char.isLinkChar (toLowerCase (trim value))).

(** [gitHubLink] called with a value of the front matter: [val || ""]
    makes a falsy value the empty string, and a truthy value that is no
    string has no method [trim]. *)
Definition gitHubLinkOf (val : Value) : result str :=
  match val with
  | VString s => Ok (gitHubLink s)
  | VOther true _ => Throw (TypeError (lit "value.trim is not a function"))
  | VOther false _ => Ok (gitHubLink [])
  end.

(** ** The methods of [MarkDownConcatenator] *)

Section Methods.
Variable this : Config.

(** [decreaseTitleLevelsBy] as a function of values: the [RangeError]
    that [repeat] raises for a level above the longest string of the
    engine is left out here. *)
Definition decreaseTitleLevelsBy (body : str) (level : Z) : str :=
  if negb (decreaseTitleLevels this) || (level <=? 0)%Z then body
  else replaceHashRuns (replicate (Z.to_nat level) HASH) LineStart body.

Definition getDirParts (file : File) : list str :=
  if decide (dir this = dirname (path file)) then []
  else split sep (relative (dir this) (dirname (path file))).

(** The variables that the callback of [dirParts.forEach] captures and
    updates. *)
Record DirLoop := {
  currentDir : str;
  loopLevel : Z;
  loopTitleMd : str;
  loopTitles : Titles;
}.

Definition titleSuffix : str := [LF; LF].

(** [currentDir += currentDir ? sep + part : part]. *)
Definition nextDir (currentDir part : str) : str :=
  currentDir ++ (if truthy currentDir then sep :: part else part).

Definition dirStep (s : DirLoop) (part : str) : result DirLoop :=
  let currentDir := nextDir (currentDir s) part in
  let level := (loopLevel s + 1)%Z in
  let titles := loopTitles s in
  if decide (currentDir ∈ visitedDirs titles) then
    Ok {| currentDir := currentDir; loopLevel := level;
          loopTitleMd := loopTitleMd s; loopTitles := titles |}
  else
    dirTitlePrefix ← repeatHash level;
    let dirTitle := startCase part in
    let titleMd :=
      loopTitleMd s ++ dirTitlePrefix ++ [SPACE] ++ dirTitle ++ titleSuffix in
    Ok {| currentDir := currentDir; loopLevel := level;
          loopTitleMd := titleMd;
          loopTitles :=
            {| visitedDirs := {[ currentDir ]} ∪ visitedDirs titles;
               fileTitleIndex :=
                 <[ join (dir this) currentDir :=
                      {| Entry.title := VString dirTitle; Entry.md := titleMd;
                         Entry.level := level |} ]>
                   (fileTitleIndex titles) |} |}.

(** The first half of [addTitle]: the directory titles. *)
Definition titleDirs (titles : Titles) (file : File) : result DirLoop :=
  let start :=
    {| currentDir := []; loopLevel := (startTitleLevelAt this - 1)%Z;
       loopTitleMd := []; loopTitles := titles |} in
  if dirNameAsTitle this then forEach dirStep (getDirParts file) start
  else Ok start.

(** [titleFromMeta], with [None] for a value that is [undefined]. *)
Definition titleFromMeta (file : File) : option Value :=
  match titleKey this with
  | Some key => if truthy key then attributes file !! key else None
  | None => None
  end.

Definition titleFromFileName (file : File) : str :=
  startCase (basename (path file) (extname (path file))).

(** [titleFromMeta || this.fileNameAsTitle]. *)
Definition hasTitle (file : File) : bool :=
  truthyValue (default (VString []) (titleFromMeta file))
  || fileNameAsTitle this.

Definition anchor (name : str) : str :=
  [LF] ++ lit "<a name=" ++ [QUOTE] ++ name ++ [QUOTE] ++ lit "></a>"
  ++ [LF; LF].

(** The second half: the title of the file itself, its markdown and
    its level. *)
Definition titleOfFile (file : File) (s : DirLoop) : result Entry.t :=
  let fromMeta := default (VString []) (titleFromMeta file) in
  if hasTitle file then
    let fileTitle :=
      if truthyValue fromMeta then fromMeta
      else VString (titleFromFileName file) in
    let level := (loopLevel s + 1)%Z in
    titlePrefix ← repeatHash level;
    Ok {| Entry.title := fileTitle;
          Entry.md :=
            loopTitleMd s ++ titlePrefix ++ [SPACE] ++ toText fileTitle
              ++ titleSuffix;
          Entry.level := level |}
  else
    let fileTitle := gitHubLink (relative (dir this) (path file)) in
    Ok {| Entry.title := VString fileTitle;
          Entry.md := loopTitleMd s ++ anchor fileTitle;
          Entry.level := loopLevel s |}.

Definition addTitle (titles : Titles) (file : File) : result Titles :=
  s ← titleDirs titles file;
  entry ← titleOfFile file s;
  Ok {| visitedDirs := visitedDirs (loopTitles s);
        fileTitleIndex :=
          <[ path file := entry ]> (fileTitleIndex (loopTitles s)) |}.

Definition getTitle (titles : Titles) (filePath : str) : result Entry.t :=
  match fileTitleIndex titles !! filePath with
  | Some title => Ok title
  | None => Throw (Error (lit "Cannot get title for " ++ filePath))
  end.

Definition TOC_TAG : str :=
  lit "<!-- START doctoc -->" ++ [LF] ++ lit "<!-- END doctoc -->".

Definition heading1 (title : str) : str := [HASH; SPACE] ++ title.

Definition addGlobalTitleAndToc (content : str) : str :=
  let title := default [] (title this) in
  if negb (toc this) then
    if truthy title then heading1 title ++ [LF] ++ content else content
  else
    let result := content in
    let result :=
      if negb (includes TOC_TAG result) then TOC_TAG ++ [LF; LF] ++ result
      else result in
    let result :=
      if truthy title then heading1 title ++ [LF; LF] ++ result else result in
    let docTocResult := transform result (tocLevel this) in
    if docTocResult.1 then docTocResult.2 else result.

(** The callback that [modifyLinks] passes to [transformLinks]; the
    [try] block is the [result] that is matched on. *)
Definition rewriteLink (titles : Titles) (file : File) (link : str) : str :=
  if startsWith (lit "http") link then link
  else
    let absoluteTargetPath := join (dirname (path file)) link in
    let hashPosition := indexOf HASH absoluteTargetPath in
    let hash :=
      match hashPosition with
      | Some i => drop i absoluteTargetPath
      | None => []
      end in
    let targetFile :=
      match hashPosition with
      | Some i => take i absoluteTargetPath
      | None => absoluteTargetPath
      end in
    match
      (if truthy hash then Ok hash
       else entry ← getTitle titles targetFile;
            slug ← gitHubLinkOf (Entry.title entry);
            Ok (HASH :: slug))
    with
    | Ok newLink => newLink
    | Throw _ => []
    end.

Definition modifyLinks (titles : Titles) (file : File) : str :=
  transformLinks (body file) (rewriteLink titles file).

Definition withBody (file : File) (body : str) : File :=
  {| path := path file; attributes := attributes file; body := body |}.

(** The body of the first loop of [concatFiles]. *)
Definition titleFile (titles : Titles) (file : File)
  : result (Titles * File) :=
  titles' ← addTitle titles file;
  entry ← getTitle titles' (path file);
  let body := decreaseTitleLevelsBy (body file) (Entry.level entry) in
  Ok (titles', withBody file (Entry.md entry ++ body)).

(** The first loop: every file is titled, in order. *)
Fixpoint titleFiles (titles : Titles) (files : list File)
  : result (Titles * list File) :=
  match files with
  | [] => Ok (titles, [])
  | file :: rest =>
      '(titles1, file1) ← titleFile titles file;
      '(titles2, rest1) ← titleFiles titles1 rest;
      Ok (titles2, file1 :: rest1)
  end.

Definition concatFilesFrom (titles : Titles) (files : list File)
  : result str :=
  '(titles', files1) ← titleFiles titles files;
  let files2 := (λ file, withBody file (modifyLinks titles' file)) <$> files1 in
  let result := joinWith (joinString this) (body <$> files2) in
  Ok (addGlobalTitleAndToc result).

(** A concatenator starts with no visited directory and no title. *)
Definition concatFiles (files : list File) : result str :=
  concatFilesFrom noTitles files.

End Methods.
End Engine.

(** ** A POSIX instance of the imports

    An executable model of the imported functions, used to run the engine
    on concrete file sets.  The [path] functions follow Node's
    [path.posix]; [resolve] takes the working directory as a parameter.
    [toLowerCase] and [startCase] are modelled on ASCII text of words
    separated by non-alphanumeric characters, [transformLinks] on inline
    links [[text](target)] and reference definitions [[id]: target], and
    [transform] as a generator that reports no change. *)

Module Posix.
Definition SLASH : N := 47%N.
Definition DOT : N := 46%N.
Definition isSlash (c : N) : bool := (c =? SLASH)%N.

Fixpoint normalizeSegments (allowAboveRoot : bool) (res segs : list str)
  : list str :=
  match segs with
  | [] => reverse res
  | seg :: rest =>
      if decide (seg = [] ∨ seg = [DOT]) then
        normalizeSegments allowAboveRoot res rest
      else if decide (seg = [DOT; DOT]) then
        match res with
        | top :: res' =>
            if decide (top = [DOT; DOT])
            then normalizeSegments allowAboveRoot (seg :: res) rest
            else normalizeSegments allowAboveRoot res' rest
        | [] =>
            normalizeSegments allowAboveRoot
              (if allowAboveRoot then [seg] else []) rest
        end
      else normalizeSegments allowAboveRoot (seg :: res) rest
  end.

Definition isAbsolute (p : str) : bool :=
  match p with c :: _ => isSlash c | [] => false end.

Definition normalize (p : str) : str :=
  match p with
  | [] => [DOT]
  | _ =>
      let trailingSeparator :=
        match last p with Some c => isSlash c | None => false end in
      let res :=
        joinWith [SLASH]
          (normalizeSegments (negb (isAbsolute p)) [] (split SLASH p)) in
      match res with
      | [] =>
          if isAbsolute p then [SLASH]
          else if trailingSeparator then [DOT; SLASH] else [DOT]
      | _ =>
          let res := if trailingSeparator then res ++ [SLASH] else res in
          if isAbsolute p then SLASH :: res else res
      end
  end.

Definition join (a b : str) : str :=
  match a, b with
  | [], [] => [DOT]
  | [], _ => normalize b
  | _, [] => normalize a
  | _, _ => normalize (a ++ SLASH :: b)
  end.

Definition dirname (p : str) : str :=
  match p with
  | [] => [DOT]
  | c :: tail =>
      let hasRoot := isSlash c in
      let beforeName :=
        stripStart (λ d, negb (isSlash d))
          (stripStart isSlash (reverse tail)) in
      match length beforeName with
      | 0 => if hasRoot then [SLASH] else [DOT]
      | 1 => if hasRoot then [SLASH; SLASH] else take 1 p
      | n => take n p
      end
  end.

Fixpoint takeWhile (p : N → bool) (s : str) : str :=
  match s with
  | c :: rest => if p c then c :: takeWhile p rest else []
  | [] => []
  end.

Definition lastSegment (p : str) : str :=
  reverse
    (takeWhile (λ d, negb (isSlash d)) (stripStart isSlash (reverse p))).

Fixpoint endsWith (suffix s : str) : bool :=
  bool_decide (s = suffix)
  || match s with [] => false | _ :: s' => endsWith suffix s' end.

Definition basename (p ext : str) : str :=
  let base := lastSegment p in
  if truthy ext && endsWith ext base && negb (bool_decide (base = ext))
  then take (length base - length ext) base
  else base.

Definition extname (p : str) : str :=
  let base := lastSegment p in
  let ext := reverse (takeWhile (λ d, negb (d =? DOT)%N) (reverse base)) in
  if bool_decide (length ext = length base) then []
  else if bool_decide (S (length ext) = length base) then []
  else if bool_decide (base = [DOT; DOT]) then []
  else DOT :: ext.

Definition resolve (cwd p : str) : list str :=
  normalizeSegments false []
    (split SLASH (if isAbsolute p then p else cwd ++ SLASH :: p)).

Fixpoint relativeSegments (from to : list str) : list str :=
  match from, to with
  | f :: from', t :: to' =>
      if decide (f = t) then relativeSegments from' to'
      else ((λ _, [DOT; DOT]) <$> from) ++ to
  | _, _ => ((λ _, [DOT; DOT]) <$> from) ++ to
  end.

Definition relative (cwd from to : str) : str :=
  match relativeSegments (resolve cwd from) (resolve cwd to) with
  | [] => []
  | segs => joinWith [SLASH] segs
  end.

Definition lowerChar (c : N) : N :=
  if Char.isUpper c then (c + 32)%N else c.
Definition upperChar (c : N) : N :=
  if Char.isLower c then (c - 32)%N else c.

Definition toLowerCase (s : str) : str := lowerChar <$> s.

Definition isAlnum (c : N) : bool :=
  Char.isUpper c || Char.isLower c || Char.isDigit c.

Fixpoint words (s : str) : list str :=
  match s with
  | [] => []
  | c :: rest =>
      if isAlnum c then
        match rest with
        | d :: _ =>
            if isAlnum d then
              match words rest with
              | w :: ws => (c :: w) :: ws
              | [] => [[c]]
              end
            else [c] :: words rest
        | [] => [[c]]
        end
      else words rest
  end.

Definition upperFirst (w : str) : str :=
  match w with c :: rest => upperChar c :: rest | [] => [] end.

Definition startCase (s : str) : str :=
  joinWith [SPACE] (upperFirst <$> words s).

(** What becomes of one target: the result of the callback, unless
    that is falsy; an empty target is not handed to the callback. *)
Definition newTarget (f : str → str) (target : str) : str :=
  if truthy target then
    if truthy (f target) then f target else target
  else target.

(** The scan for inline links [[text](target)] and for reference
    definitions [[id]: target] that open a line.  [seen] is what was
    read since the opening bracket, up to the target; [ref] holds while
    the bracket opened a line and no line has ended since. *)
Inductive Scan :=
  | Outside (lineStart : bool)
  | InText (ref : bool) (seen : str)
  | AfterText (ref : bool) (seen : str)
  | InTarget (seen target : str)
  | RefBlank (seen : str)
  | RefTarget (seen target : str).

Fixpoint scanLinks (f : str → str) (st : Scan) (s : str) : str :=
  match s with
  | [] =>
      match st with
      | Outside _ => []
      | InText _ seen | AfterText _ seen | RefBlank seen => seen
      | InTarget seen target => seen ++ target
      | RefTarget seen target => seen ++ newTarget f target
      end
  | c :: rest =>
      match st with
      | Outside lineStart =>
          if (c =? 91)%N then scanLinks f (InText lineStart [c]) rest
          else c :: scanLinks f (Outside (Char.isLineTerminator c)) rest
      | InText ref seen =>
          if (c =? 93)%N then scanLinks f (AfterText ref (seen ++ [c])) rest
          else scanLinks f
                 (InText (ref && negb (Char.isLineTerminator c)) (seen ++ [c]))
                 rest
      | AfterText ref seen =>
          if (c =? 40)%N then scanLinks f (InTarget (seen ++ [c]) []) rest
          else if ref && (c =? 58)%N
          then scanLinks f (RefBlank (seen ++ [c])) rest
          else if (c =? 91)%N then seen ++ scanLinks f (InText false [c]) rest
          else seen ++ c :: scanLinks f (Outside (Char.isLineTerminator c)) rest
      | InTarget seen target =>
          if (c =? 41)%N
          then seen ++ newTarget f target
                 ++ c :: scanLinks f (Outside false) rest
          else scanLinks f (InTarget seen (target ++ [c])) rest
      | RefBlank seen =>
          if Char.isLineTerminator c
          then seen ++ c :: scanLinks f (Outside true) rest
          else if Char.isWhiteSpace c
          then scanLinks f (RefBlank (seen ++ [c])) rest
          else scanLinks f (RefTarget seen [c]) rest
      | RefTarget seen target =>
          if Char.isLineTerminator c
          then seen ++ newTarget f target
                 ++ c :: scanLinks f (Outside true) rest
          else scanLinks f (RefTarget seen (target ++ [c])) rest
      end
  end.

Definition transformLinks (input : str) (f : str → str) : str :=
  scanLinks f (Outside true) input.

(** The longest string of V8 on a 64-bit machine. *)
Definition maxStringLength : Z := 536870888.

Definition imports (cwd : str) : Imports :=
  Build_Imports maxStringLength toLowerCase SLASH join (relative cwd) dirname
    basename extname startCase transformLinks (λ content _, (false, content)).
End Posix.


(** ** Derived notions used in the statements *)

(** The values that [currentDir] takes while [addTitle] walks the
    directory parts of a file. *)
Fixpoint cumulativeDirs `{Imports} (currentDir : str) (parts : list str)
  : list str :=
  match parts with
  | [] => []
  | part :: rest =>
      nextDir currentDir part :: cumulativeDirs (nextDir currentDir part) rest
  end.

(** The keys under which [addTitle] may record directory titles for a
    file. *)
Definition dirKeys `{Imports} (this : Config) (file : File) : list str :=
  if dirNameAsTitle this
  then join (dir this) <$> cumulativeDirs [] (getDirParts this file)
  else [].

(** The level counter as the design document words it: a directory
    part consumes a level only when its cumulative path is newly seen. *)
Fixpoint levelOfNewDirs `{Imports} (visited : gset str) (currentDir : str)
    (level : Z) (parts : list str) : Z :=
  match parts with
  | [] => level
  | part :: rest =>
      let currentDir := nextDir currentDir part in
      if decide (currentDir ∈ visited)
      then levelOfNewDirs visited currentDir level rest
      else levelOfNewDirs ({[ currentDir ]} ∪ visited) currentDir
             (level + 1)%Z rest
  end.

(** The level of the file's own title according to that wording. *)
Definition levelOfNewDirsTitle `{Imports} (this : Config) (titles : Titles)
    (file : File) : Z :=
  (levelOfNewDirs (visitedDirs titles) [] (startTitleLevelAt this - 1)
     (getDirParts this file) + 1)%Z.

(** [titles] with [entry] put under [key], whatever was there. *)
Definition withEntry (titles : Titles) (key : str) (entry : Entry.t) : Titles :=
  {| visitedDirs := visitedDirs titles;
     fileTitleIndex := <[ key := entry ]> (fileTitleIndex titles) |}.


(** The walk does not read the index: two states that differ only in
    the index at [p] stay so. *)
Definition alike (p : str) (s1 s2 : DirLoop) : Prop :=
  currentDir s1 = currentDir s2
  ∧ loopLevel s1 = loopLevel s2
  ∧ loopTitleMd s1 = loopTitleMd s2
  ∧ visitedDirs (loopTitles s1) = visitedDirs (loopTitles s2)
  ∧ ∀ k, k ≠ p →
      fileTitleIndex (loopTitles s1) !! k = fileTitleIndex (loopTitles s2) !! k.

Definition alikeResults (p : str) (r1 r2 : result DirLoop) : Prop :=
  match r1, r2 with
  | Ok s1, Ok s2 => alike p s1 s2
  | Throw e1, Throw e2 => e1 = e2
  | _, _ => False
  end.


(** ** Links in a body *)

(** The markdown of an inline link. *)
Definition inlineLink (text target : str) : str :=
  [91%N] ++ text ++ [93%N; 40%N] ++ target ++ [41%N].

(** A text in which no link and no reference definition begins: it
    holds no opening bracket. *)
Definition noLinkStart (s : str) : Prop :=
  Forall (λ c, (c =? 91)%N = false) s.

(** A character of a plain link text: no bracket, no line break. *)
Definition isLabelChar (c : N) : bool :=
  negb (c =? 91)%N && negb (c =? 93)%N && negb (Char.isLineTerminator c).

(** A character of a plain link target: no bracket, no parenthesis, no
    white space. *)
Definition isTargetChar (c : N) : bool :=
  negb (c =? 40)%N && negb (c =? 41)%N && negb (c =? 91)%N
  && negb (c =? 93)%N && negb (Char.isWhiteSpace c).

(** What the development relies on for transform-markdown-links: when
    the callback returns the empty string for the target of the one
    plain inline link of a text, the text comes back as it is. *)
Class TransformLinksLaws (I : Imports) : Prop := {
  transformLinks_keeps : ∀ pre text target post f,
    noLinkStart pre → noLinkStart post →
    Forall (λ c, isLabelChar c = true) text →
    Forall (λ c, isTargetChar c = true) target →
    f target = [] →
    transformLinks (pre ++ inlineLink text target ++ post) f
    = pre ++ inlineLink text target ++ post;
}.


(** ** Sample runs *)

Module Sample.
Definition posix : Imports := Posix.imports (lit "/").

Definition file (p : string) (body : str) : File :=
  {| path := lit p; attributes := ∅; body := body |}.

(** [dirNameAsTitle] and [fileNameAsTitle] set, the rest left out. *)
Definition byName : Config :=
  new (lit "/docs")
    {| Options.title := None; Options.toc := None;
       Options.tocLevel := None; Options.decreaseTitleLevels := None;
       Options.startTitleLevelAt := None; Options.joinString := None;
       Options.titleKey := None; Options.fileNameAsTitle := Some true;
       Options.dirNameAsTitle := Some true |}.

(** No option given. *)
Definition plain : Config := new (lit "/docs") Options.none.

(** [decreaseTitleLevels] set. *)
Definition decreasing : Config :=
  new (lit "/docs")
    {| Options.title := None; Options.toc := None;
       Options.tocLevel := None; Options.decreaseTitleLevels := Some true;
       Options.startTitleLevelAt := None; Options.joinString := None;
       Options.titleKey := None; Options.fileNameAsTitle := None;
       Options.dirNameAsTitle := None |}.

Definition withJoinString (j : option str) : Options.t :=
  {| Options.title := None; Options.toc := None;
     Options.tocLevel := None; Options.decreaseTitleLevels := None;
     Options.startTitleLevelAt := None; Options.joinString := j;
     Options.titleKey := None; Options.fileNameAsTitle := None;
     Options.dirNameAsTitle := None |}.

Definition a_md : File := file "/docs/a.md" (lit "# A" ++ [LF]).
Definition sub_b_md : File := file "/docs/sub/b.md" (lit "[link](../a.md)").
Definition sub_a_md : File := file "/docs/sub/a.md" (lit "text").
Definition sub_c_md : File := file "/docs/sub/c.md" (lit "[gone](missing.md)").

Definition fence : str := lit "```".
End Sample.

(** ** Notions used by the further properties *)

(** A heading line as the rewriter leaves it: [extra] goes after the
    leading run of [#]. *)
Fixpoint afterHashes (extra line : str) : str :=
  match line with
  | [] => extra
  | c :: rest =>
      if (c =? HASH)%N then c :: afterHashes extra rest else extra ++ line
  end.

(** One line of a body, rewritten on its own. *)
Definition shiftLine (extra line : str) : str :=
  match line with
  | [] => []
  | c :: _ => if (c =? HASH)%N then afterHashes extra line else line
  end.

(** The title that [addTitle] derives for a file. *)
Definition derivedTitle `{Imports} (this : Config) (file : File) : Value :=
  let fromMeta := default (VString []) (titleFromMeta this file) in
  if truthyValue fromMeta then fromMeta
  else if fileNameAsTitle this then VString (titleFromFileName file)
  else VString (gitHubLink (relative (dir this) (path file))).

(** Every visited directory has its entry in the index. *)
Definition dirsRecorded `{Imports} (this : Config) (titles : Titles) : Prop :=
  ∀ d, d ∈ visitedDirs titles →
    is_Some (fileTitleIndex titles !! join (dir this) d).

(** The state in which [addTitle] starts its walk. *)
Definition loopStart (this : Config) (titles : Titles) : DirLoop :=
  {| currentDir := []; loopLevel := (startTitleLevelAt this - 1)%Z;
     loopTitleMd := []; loopTitles := titles |}.

Module More.
Definition options (start : Z) (byFile byDir : bool) : Options.t :=
  {| Options.title := None; Options.toc := None;
     Options.tocLevel := None; Options.decreaseTitleLevels := None;
     Options.startTitleLevelAt := Some start; Options.joinString := None;
     Options.titleKey := Some (lit "title");
     Options.fileNameAsTitle := Some byFile;
     Options.dirNameAsTitle := Some byDir |}.

(** Titles from the metadata key [title] or from file names, no
    directory titles. *)
Definition flat (start : Z) : Config :=
  new (lit "/docs") (options start true false).

(** The same with a table of contents and a global title. *)
Definition withToc (title : option str) : Config :=
  new (lit "/docs")
    {| Options.title := title; Options.toc := Some true;
       Options.tocLevel := None; Options.decreaseTitleLevels := None;
       Options.startTitleLevelAt := None; Options.joinString := None;
       Options.titleKey := None; Options.fileNameAsTitle := None;
       Options.dirNameAsTitle := None |}.

Definition guide_md : File :=
  {| path := lit "/docs/guide.md";
     attributes := {[ lit "title" := VString (lit "User Guide") ]};
     body := lit "See [api](api/index.md)." |}.

(** A file whose metadata title is a number. *)
Definition year_md : File :=
  {| path := lit "/docs/year.md";
     attributes := {[ lit "title" := VOther true (lit "2021") ]};
     body := lit "Notes." |}.

Definition api_index_md : File :=
  {| path := lit "/docs/api/index.md"; attributes := ∅;
     body := lit "# API" ++ [LF] ++ lit "Back to [guide](../guide.md#top)." |}.
End More.

(** ** The glob patterns of the constructor *)

(** [arrify]: a value that is no array becomes an array of one. *)
Definition arrify {T} (input : T + list T) : list T :=
  match input with
  | inl value => [value]
  | inr values => values
  end.

(** [include.length], of a string or of an array. *)
Definition lengthOf (input : str + list str) : nat :=
  match input with
  | inl value => length value
  | inr values => length values
  end.

(** [this.include], from the option [include] ([None]: left out, so
    the default [[]] of the destructuring applies). *)
Definition includeOf (include : option (str + list str)) : list str :=
  let include := default (inr []) include in
  match lengthOf include with
  | 0 => [lit "**/*.md"]
  | _ => arrify include
  end.

(** [this.ignore]. *)
Definition ignoreOf (ignore : option (str + list str)) : list str :=
  arrify (default (inr []) ignore).

(** ** The command line script: [splitStrings] *)

Definition COMMA : N := 44%N.

(** [s.split(/\s*,\s*/)] for a non-empty [s], as the scan of the split
    loop.  [cur] is the piece read so far and [pend] the white space
    after it, which belongs to the piece unless a comma follows;
    [afterComma] holds while the white space after a comma is consumed
    with it. *)
Fixpoint splitCommas (afterComma : bool) (cur pend : str) (s : str)
  : list str :=
  match s with
  | [] => [cur ++ pend]
  | c :: rest =>
      if (c =? COMMA)%N then cur :: splitCommas true [] [] rest
      else if Char.isWhiteSpace c then
        if afterComma then splitCommas true [] [] rest
        else splitCommas false cur (pend ++ [c]) rest
      else splitCommas false (cur ++ pend ++ [c]) [] rest
  end.

(** [splitStrings]; [None] is a flag that was not given. *)
Definition splitStrings (valuesCSV : option str) : list str :=
  match valuesCSV with
  | Some csv => if truthy csv then splitCommas false [] [] csv else []
  | None => []
  end.

(** A value that [splitStrings] gives back as it is: no comma in it and
    no white space at either end. *)
Definition csvValue (value : str) : Prop :=
  (COMMA ∉ value)
  ∧ (∀ c, head value = Some c → Char.isWhiteSpace c = false)
  ∧ (∀ c, last value = Some c → Char.isWhiteSpace c = false).

(** A separator of the list: a comma with white space around it. *)
Definition csvSeparator (before after : str) : str :=
  before ++ [COMMA] ++ after.

(** * Properties *)

(** ** Character classes *)

Ltac char_props :=
  unfold Char.isSlugChar, Char.isLinkChar, Char.isWord, Char.isWhiteSpace,
    Char.isLineTerminator, Char.isUpper, Char.isLower, Char.isDigit,
    Char.between, HYPHEN, HASH, SPACE in *;
  repeat match goal with
    | H : _ = false |- _ => apply not_true_iff_false in H
    | |- _ = false => apply not_true_iff_false
    end;
  rewrite ?orb_true_iff, ?andb_true_iff, ?N.eqb_eq, ?N.leb_le in *.



Lemma link_to_slug c :
  Char.isLinkChar c = true → Char.isUpper c = false →
  Char.isSlugChar (if Char.isWhiteSpace c then HYPHEN else c) = true.
Proof.
  intros H1 H2. destruct (Char.isWhiteSpace c) eqn:E.
  - reflexivity.
  - char_props. lia.
Qed.

(** ** Stripping *)



Lemma stripEnd_Forall (P : N → Prop) p s : Forall P s → Forall P (stripEnd p s).
Proof.
  induction 1 as [|c s Hc Hs IH]; simpl; [constructor |].
  destruct (stripEnd p s).
  - destruct (p c); by repeat constructor.
  - by constructor.
Qed.



(** ** Slugs *)

Section Slug.
Context {I : Imports} {L : LowerCaseLaws I}.

Lemma gitHubLink_slug s : Forall (λ c, Char.isSlugChar c = true) (gitHubLink s).
Proof.
  unfold gitHubLink. apply stripEnd_Forall.
  apply Forall_fmap, Forall_forall. intros c Hc.
  apply list_elem_of_In, filter_In in Hc as [Hin Hlink].
  apply link_to_slug; [done |].
  eapply lower_no_upper. apply list_elem_of_In, Hin.
Qed.




End Slug.

(** ** Heading runs *)

Lemma replaceHashRuns_run extra n s :
  replaceHashRuns extra InRun (replicate n HASH ++ s)
  = replicate n HASH ++ replaceHashRuns extra InRun s.
Proof. induction n as [|n IH]; simpl; [done | by rewrite IH]. Qed.

Lemma replaceHashRuns_twice n m p s :
  replaceHashRuns (replicate m HASH) p (replaceHashRuns (replicate n HASH) p s)
  = replaceHashRuns (replicate (n + m) HASH) p s.
Proof.
  revert p. induction s as [|c s IH]; intros p.
  - destruct p; simpl; try done.
    rewrite <- (app_nil_r (replicate n HASH)) at 1.
    rewrite replaceHashRuns_run. simpl. by rewrite replicate_add.
  - simpl. destruct (c =? HASH)%N eqn:E.
    + simpl. rewrite E. destruct p; by rewrite IH.
    + destruct p; simpl; rewrite ?E, ?IH; try done.
      rewrite replaceHashRuns_run. simpl. rewrite E, IH. simpl.
      by rewrite replicate_add, <- app_assoc.
Qed.

Lemma replaceHashRuns_inside extra s t :
  Forall (λ c, Char.isLineTerminator c = false) s →
  replaceHashRuns extra Inside (s ++ t) = s ++ replaceHashRuns extra Inside t.
Proof.
  induction 1 as [|c s Hc Hs IH]; simpl; [done |].
  rewrite Hc, IH. by destruct (c =? HASH)%N.
Qed.

(** ** Results *)

Lemma bind_Ok {A B} (m : result A) (k : A → result B) b :
  m ≫= k = Ok b → ∃ a, m = Ok a ∧ k a = Ok b.
Proof. destruct m as [a|e]; [by exists a | done]. Qed.

(** ** The walk over the directory parts *)

Section DirLoopFacts.
Context {I : Imports} (this : Config).

Lemma dirStep_seen s part :
  nextDir (currentDir s) part ∈ visitedDirs (loopTitles s) →
  dirStep this s part
  = Ok {| currentDir := nextDir (currentDir s) part;
          loopLevel := (loopLevel s + 1)%Z;
          loopTitleMd := loopTitleMd s;
          loopTitles := loopTitles s |}.
Proof. intros H. unfold dirStep. by rewrite decide_True. Qed.

Lemma dirStep_Ok s part s' :
  dirStep this s part = Ok s' →
  currentDir s' = nextDir (currentDir s) part
  ∧ loopLevel s' = (loopLevel s + 1)%Z
  ∧ currentDir s' ∈ visitedDirs (loopTitles s')
  ∧ visitedDirs (loopTitles s) ⊆ visitedDirs (loopTitles s')
  ∧ (∀ k, k ≠ join (dir this) (currentDir s') →
       fileTitleIndex (loopTitles s') !! k = fileTitleIndex (loopTitles s) !! k)
  ∧ (∀ k, is_Some (fileTitleIndex (loopTitles s) !! k) →
       is_Some (fileTitleIndex (loopTitles s') !! k)).
Proof.
  unfold dirStep. case_decide as Hin.
  - intros [= <-]; simpl. repeat split; auto.
  - intros (prefix & _ & [= <-])%bind_Ok; simpl.
    repeat split.
    + apply elem_of_union_l, elem_of_singleton. done.
    + apply union_subseteq_r.
    + intros k Hk. by rewrite lookup_insert_ne.
    + intros k Hk. rewrite lookup_insert. by case_decide.
Qed.

Lemma dirLoop_Ok parts s s' :
  forEach (dirStep this) parts s = Ok s' →
  loopLevel s' = (loopLevel s + Z.of_nat (length parts))%Z
  ∧ visitedDirs (loopTitles s) ⊆ visitedDirs (loopTitles s')
  ∧ (∀ k, k ∉ join (dir this) <$> cumulativeDirs (currentDir s) parts →
       fileTitleIndex (loopTitles s') !! k = fileTitleIndex (loopTitles s) !! k)
  ∧ (∀ k, is_Some (fileTitleIndex (loopTitles s) !! k) →
       is_Some (fileTitleIndex (loopTitles s') !! k)).
Proof.
  revert s. induction parts as [|part parts IH]; intros s; simpl.
  - intros [= <-]. repeat split; auto. lia.
  - intros (s1 & Hstep & Hrest)%bind_Ok.
    apply dirStep_Ok in Hstep as (Hcur & Hlevel & _ & Hvis & Hother & Hdom).
    apply IH in Hrest as (Hlevel' & Hvis' & Hother' & Hdom').
    repeat split.
    + lia.
    + by etrans.
    + intros k Hk. rewrite Hother', Hother; [done | |].
      * intros ->. apply Hk. rewrite Hcur. left.
      * intros Hin. apply Hk. rewrite <- Hcur. by right.
    + auto.
Qed.

(** When every cumulative directory has been visited, the walk only
    counts. *)
Lemma dirLoop_all_seen parts s :
  Forall (λ d, d ∈ visitedDirs (loopTitles s))
    (cumulativeDirs (currentDir s) parts) →
  ∃ currentDir',
    forEach (dirStep this) parts s
    = Ok {| currentDir := currentDir';
            loopLevel := (loopLevel s + Z.of_nat (length parts))%Z;
            loopTitleMd := loopTitleMd s;
            loopTitles := loopTitles s |}.
Proof.
  revert s. induction parts as [|part parts IH]; intros s; simpl.
  - intros _. exists (currentDir s). destruct s; simpl.
    do 2 f_equal. lia.
  - intros Hall. inversion Hall as [|?? Hd Hrest]; subst.
    rewrite dirStep_seen by done. simpl.
    destruct (IH {| currentDir := nextDir (currentDir s) part;
                    loopLevel := (loopLevel s + 1)%Z;
                    loopTitleMd := loopTitleMd s;
                    loopTitles := loopTitles s |} Hrest) as [c Hc].
    exists c. rewrite Hc. simpl. do 2 f_equal. lia.
Qed.

Lemma dirStep_alike p s1 s2 part :
  alike p s1 s2 →
  alikeResults p (dirStep this s1 part) (dirStep this s2 part).
Proof.
  intros (Hcur & Hlevel & Hmd & Hvis & Hidx). unfold dirStep.
  rewrite Hcur, Hlevel, Hmd, Hvis. case_decide.
  - simpl. by repeat split.
  - destruct (repeatHash (loopLevel s2 + 1)); simpl; [| done].
    repeat split; auto. intros k Hk. cbn [fileTitleIndex loopTitles].
    rewrite !lookup_insert. case_decide; auto.
Qed.

Lemma dirLoop_alike p parts s1 s2 :
  alike p s1 s2 →
  alikeResults p (forEach (dirStep this) parts s1)
    (forEach (dirStep this) parts s2).
Proof.
  revert s1 s2. induction parts as [|part parts IH]; intros s1 s2 H; simpl.
  - done.
  - pose proof (dirStep_alike p s1 s2 part H) as Hstep.
    destruct (dirStep this s1 part), (dirStep this s2 part); simpl in *;
      try done.
    by apply IH.
Qed.

End DirLoopFacts.

(** ** [addTitle] and the first pass *)

Section TitleFacts.
Context {I : Imports} (this : Config).

Lemma titleDirs_Ok titles file s :
  titleDirs this titles file = Ok s →
  loopLevel s
  = (startTitleLevelAt this - 1
     + (if dirNameAsTitle this
        then Z.of_nat (length (getDirParts this file)) else 0))%Z
  ∧ visitedDirs titles ⊆ visitedDirs (loopTitles s)
  ∧ (∀ k, k ∉ dirKeys this file →
       fileTitleIndex (loopTitles s) !! k = fileTitleIndex titles !! k)
  ∧ (∀ k, is_Some (fileTitleIndex titles !! k) →
       is_Some (fileTitleIndex (loopTitles s) !! k)).
Proof.
  unfold titleDirs, dirKeys. destruct (dirNameAsTitle this).
  - intros H. apply dirLoop_Ok in H. simpl in H. done.
  - intros [= <-]. simpl. repeat split; auto. lia.
Qed.

Lemma titleOfFile_Ok file s entry :
  titleOfFile this file s = Ok entry →
  Entry.level entry
  = (loopLevel s + (if hasTitle this file then 1 else 0))%Z
  ∧ ∃ own, Entry.md entry = loopTitleMd s ++ own.
Proof.
  unfold titleOfFile. destruct (hasTitle this file).
  - intros (prefix & _ & [= <-])%bind_Ok. simpl. eauto.
  - intros [= <-]. simpl. split; [lia | eauto].
Qed.

Lemma addTitle_Ok titles file titles' :
  addTitle this titles file = Ok titles' →
  ∃ s entry,
    titleDirs this titles file = Ok s
    ∧ titleOfFile this file s = Ok entry
    ∧ visitedDirs titles' = visitedDirs (loopTitles s)
    ∧ fileTitleIndex titles'
      = <[ path file := entry ]> (fileTitleIndex (loopTitles s)).
Proof.
  unfold addTitle.
  intros (s & Hs & (entry & He & [= <-])%bind_Ok)%bind_Ok.
  exists s, entry. done.
Qed.

Lemma addTitle_records titles file titles' :
  addTitle this titles file = Ok titles' →
  is_Some (fileTitleIndex titles' !! path file)
  ∧ (∀ k, is_Some (fileTitleIndex titles !! k) →
       is_Some (fileTitleIndex titles' !! k))
  ∧ (∀ k, k ≠ path file → k ∉ dirKeys this file →
       fileTitleIndex titles' !! k = fileTitleIndex titles !! k).
Proof.
  intros (s & entry & Hs & _ & _ & ->)%addTitle_Ok.
  apply titleDirs_Ok in Hs as (_ & _ & Hother & Hdom).
  repeat split.
  - rewrite lookup_insert_eq. eauto.
  - intros k Hk. rewrite lookup_insert. case_decide; eauto.
  - intros k Hk Hd. rewrite lookup_insert_ne by done. auto.
Qed.

Lemma titleFile_Ok titles file titles' file1 :
  titleFile this titles file = Ok (titles', file1) →
  ∃ entry,
    addTitle this titles file = Ok titles'
    ∧ fileTitleIndex titles' !! path file = Some entry
    ∧ file1 = withBody file
        (Entry.md entry
           ++ decreaseTitleLevelsBy this (body file) (Entry.level entry)).
Proof.
  unfold titleFile. intros (t1 & Ht1 & (entry & He & H)%bind_Ok)%bind_Ok.
  injection H as <- <-. exists entry. repeat split; [done |].
  unfold getTitle in He. by destruct (fileTitleIndex t1 !! path file); simplify_eq.
Qed.


Lemma titleFiles_cons titles file rest titles' files1 :
  titleFiles this titles (file :: rest) = Ok (titles', files1) →
  ∃ titles1 file1 rest1,
    titleFile this titles file = Ok (titles1, file1)
    ∧ titleFiles this titles1 rest = Ok (titles', rest1)
    ∧ files1 = file1 :: rest1.
Proof.
  simpl. intros ([t1 f1] & H1 & ([t2 r1] & H2 & H)%bind_Ok)%bind_Ok.
  injection H as <- <-. eauto 10.
Qed.

Lemma titleFiles_app titles pre post titles' files1 :
  titleFiles this titles (pre ++ post) = Ok (titles', files1) →
  ∃ titles1 pre1 post1,
    titleFiles this titles pre = Ok (titles1, pre1)
    ∧ titleFiles this titles1 post = Ok (titles', post1)
    ∧ files1 = pre1 ++ post1 ∧ length pre1 = length pre.
Proof.
  revert titles files1. induction pre as [|f pre IH]; intros titles files1.
  - simpl. intros H. exists titles, [], files1. done.
  - rewrite <- app_comm_cons.
    intros (t1 & f1 & r1 & Hf & Hrest & ->)%titleFiles_cons.
    apply IH in Hrest as (t2 & pre1 & post1 & Hpre & Hpost & -> & Hlen).
    exists t2, (f1 :: pre1), post1. simpl. rewrite Hf. simpl.
    rewrite Hpre. simpl. rewrite Hlen. done.
Qed.

Lemma titleFiles_records titles files titles' files1 :
  titleFiles this titles files = Ok (titles', files1) →
  (∀ k, is_Some (fileTitleIndex titles !! k) →
     is_Some (fileTitleIndex titles' !! k))
  ∧ (∀ file, file ∈ files → is_Some (fileTitleIndex titles' !! path file))
  ∧ (∀ k, (∀ file, file ∈ files → k ≠ path file ∧ k ∉ dirKeys this file) →
       fileTitleIndex titles' !! k = fileTitleIndex titles !! k).
Proof.
  revert titles files1. induction files as [|f files IH]; intros titles files1.
  - simpl. intros [= <- <-]. repeat split; auto. intros ? H. inversion H.
  - intros (t1 & f1 & r1 & Hf & Hrest & ->)%titleFiles_cons.
    apply titleFile_Ok in Hf as (entry & Hadd & _ & _).
    apply addTitle_records in Hadd as (Hown & Hdom & Hother).
    apply IH in Hrest as (Hdom' & Hall & Hother').
    repeat split.
    + auto.
    + intros file [-> | Hin]%elem_of_cons; auto.
    + intros k Hk. rewrite Hother'.
      * destruct (Hk f) as [? ?]; [left |]. auto.
      * intros file Hin. apply Hk. by right.
Qed.

End TitleFacts.

(** * The heading level rewriter *)

Lemma replaceHashRuns_close extra s :
  head s ≠ Some HASH →
  replaceHashRuns extra InRun s = extra ++ replaceHashRuns extra Inside s.
Proof.
  destruct s as [|c s]; simpl; intros H.
  - by rewrite app_nil_r.
  - destruct (N.eqb_spec c HASH) as [->|]; done.
Qed.

Lemma decreaseTitleLevelsBy_guard (this : Config) (body : str) (level : Z) :
  negb (decreaseTitleLevels this) || (level <=? 0)%Z = true →
  decreaseTitleLevelsBy this body level = body.
Proof. intros H. unfold decreaseTitleLevelsBy. by rewrite H. Qed.

(** C6: the heading level rewriter returns the body as it is whenever
    level-decreasing is switched off or the shift is zero or negative. *)
Theorem decreaseTitleLevelsBy_unchanged (this : Config) (body : str) (level : Z) :
  decreaseTitleLevels this = false ∨ (level ≤ 0)%Z →
  decreaseTitleLevelsBy this body level = body.
Proof.
  intros H. apply decreaseTitleLevelsBy_guard.
  destruct H as [-> | H]; [done |].
  apply Z.leb_le in H. rewrite H. apply orb_true_r.
Qed.

Lemma decreaseTitleLevelsBy_unchanged_witness :
  (decreaseTitleLevels Sample.plain = false ∨ (3 ≤ 0)%Z)
  ∧ decreaseTitleLevelsBy Sample.plain (lit "# A") 3 = lit "# A".
Proof.
  split.
  - left. reflexivity.
  - apply decreaseTitleLevelsBy_unchanged. left. reflexivity.
Defined.

Lemma decreaseTitleLevelsBy_shift (this : Config) (body : str) (level : Z) :
  decreaseTitleLevels this = true → (0 < level)%Z →
  decreaseTitleLevelsBy this body level
  = replaceHashRuns (replicate (Z.to_nat level) HASH) LineStart body.
Proof.
  intros Hd Hl. unfold decreaseTitleLevelsBy. rewrite Hd.
  destruct (Z.leb_spec level 0); [lia | done].
Qed.

(** C7: with level-decreasing enabled, shifting by [a] and then by [b]
    is shifting by [a + b], for all non-negative [a] and [b]. *)
Theorem decreaseTitleLevelsBy_additive (this : Config) (body : str) (a b : Z) :
  decreaseTitleLevels this = true → (0 ≤ a)%Z → (0 ≤ b)%Z →
  decreaseTitleLevelsBy this (decreaseTitleLevelsBy this body a) b
  = decreaseTitleLevelsBy this body (a + b).
Proof.
  intros Hd Ha Hb.
  destruct (decide (a = 0%Z)) as [-> | Ha0].
  { by rewrite (decreaseTitleLevelsBy_guard this body 0) by apply orb_true_r. }
  destruct (decide (b = 0%Z)) as [-> | Hb0].
  { rewrite decreaseTitleLevelsBy_guard by apply orb_true_r.
    by rewrite Z.add_0_r. }
  rewrite !decreaseTitleLevelsBy_shift by (done || lia).
  rewrite replaceHashRuns_twice. do 3 f_equal. lia.
Qed.

Lemma decreaseTitleLevelsBy_additive_witness :
  decreaseTitleLevels Sample.decreasing = true ∧ (0 ≤ 1)%Z ∧ (0 ≤ 2)%Z
  ∧ decreaseTitleLevelsBy Sample.decreasing
      (decreaseTitleLevelsBy Sample.decreasing (lit "# A") 1) 2
    = decreaseTitleLevelsBy Sample.decreasing (lit "# A") (1 + 2).
Proof.
  split; [reflexivity |]. split; [lia |]. split; [lia |].
  apply decreaseTitleLevelsBy_additive; [reflexivity | lia | lia].
Defined.

(** C10: the rewriter does not know about code fences.  A line of a
    fenced block that begins with a run of [#] gets the extra [#]
    characters appended to the run, like a heading. *)
Theorem decreaseTitleLevelsBy_inside_fence
    (this : Config) (k : nat) (shift : Z) (text : str) :
  decreaseTitleLevels this = true → (1 ≤ shift)%Z →
  head text ≠ Some HASH →
  Forall (λ c, Char.isLineTerminator c = false) text →
  decreaseTitleLevelsBy this
    (Sample.fence ++ [LF] ++ replicate (S k) HASH ++ text ++ [LF]
       ++ Sample.fence) shift
  = Sample.fence ++ [LF] ++ replicate (S k) HASH
      ++ replicate (Z.to_nat shift) HASH ++ text ++ [LF] ++ Sample.fence.
Proof.
  intros Hd Hshift Hhead Htext.
  rewrite decreaseTitleLevelsBy_shift by (done || lia).
  set (extra := replicate (Z.to_nat shift) HASH).
  change (replaceHashRuns extra LineStart
            (Sample.fence ++ [LF] ++ replicate (S k) HASH ++ text ++ [LF]
               ++ Sample.fence))
    with (Sample.fence ++ [LF] ++ HASH ::
            replaceHashRuns extra InRun
              (replicate k HASH ++ text ++ [LF] ++ Sample.fence)).
  rewrite replaceHashRuns_run.
  rewrite replaceHashRuns_close.
  - rewrite replaceHashRuns_inside by done. reflexivity.
  - destruct text; [done | by simpl in *].
Qed.

Lemma decreaseTitleLevelsBy_inside_fence_witness :
  decreaseTitleLevels Sample.decreasing = true ∧ (1 ≤ 1)%Z
  ∧ head (lit " not a heading") ≠ Some HASH
  ∧ Forall (λ c, Char.isLineTerminator c = false) (lit " not a heading")
  ∧ decreaseTitleLevelsBy Sample.decreasing
      (Sample.fence ++ [LF] ++ replicate 1 HASH ++ lit " not a heading"
         ++ [LF] ++ Sample.fence) 1
    = Sample.fence ++ [LF] ++ replicate 1 HASH ++ replicate (Z.to_nat 1) HASH
        ++ lit " not a heading" ++ [LF] ++ Sample.fence.
Proof.
  assert (Forall (λ c, Char.isLineTerminator c = false) (lit " not a heading"))
    as Htext by (vm_compute; repeat constructor).
  split; [reflexivity |]. split; [lia |]. split; [discriminate |].
  split; [exact Htext |].
  apply decreaseTitleLevelsBy_inside_fence;
    [reflexivity | lia | discriminate | exact Htext].
Defined.

(** * Slugs and anchors *)

Lemma posix_lowerCaseLaws cwd : LowerCaseLaws (Posix.imports cwd).
Proof.
  split; simpl; unfold Posix.toLowerCase.
  - intros s c (d & -> & _)%list_elem_of_fmap. unfold Posix.lowerChar.
    destruct (Char.isUpper d) eqn:E; [| done].
    char_props. lia.
  - induction 1 as [|c s Hc Hs IH]; [done |].
    rewrite fmap_cons, IH. f_equal. unfold Posix.lowerChar.
    assert (Char.isUpper c = false) as -> by (char_props; lia). done.
Qed.



(** * The link rewriter and the driver *)

Section RunFacts.
Context {I : Imports} (this : Config).

Lemma rewriteLink_lookup_fails titles file link e :
  startsWith (lit "http") link = false →
  indexOf HASH (join (dirname (path file)) link) = None →
  getTitle titles (join (dirname (path file)) link) = Throw e →
  rewriteLink titles file link = [].
Proof.
  intros Hhttp Hhash Hget. unfold rewriteLink.
  rewrite Hhttp, Hhash. simpl. by rewrite Hget.
Qed.

Lemma getTitle_None titles filePath :
  fileTitleIndex titles !! filePath = None →
  getTitle titles filePath
  = Throw (Error (lit "Cannot get title for " ++ filePath)).
Proof. intros H. unfold getTitle. by rewrite H. Qed.

Lemma concatFilesFrom_Ok titles files titles' files1 :
  titleFiles this titles files = Ok (titles', files1) →
  concatFilesFrom this titles files
  = Ok (addGlobalTitleAndToc this
          (joinWith (joinString this) (modifyLinks titles' <$> files1))).
Proof.
  intros H. unfold concatFilesFrom. rewrite H. simpl.
  by rewrite <- list_fmap_compose.
Qed.


End RunFacts.

Lemma scanLinks_outside f lineStart s :
  noLinkStart s →
  ∃ lineStart', ∀ rest,
    Posix.scanLinks f (Posix.Outside lineStart) (s ++ rest)
    = s ++ Posix.scanLinks f (Posix.Outside lineStart') rest.
Proof.
  intros H. revert lineStart.
  induction H as [|c s Hc Hs IH]; intros lineStart.
  - by exists lineStart.
  - destruct (IH (Char.isLineTerminator c)) as [lineStart' Hrest].
    exists lineStart'. intros rest. simpl. by rewrite Hc, Hrest.
Qed.

Lemma scanLinks_text f ref seen text :
  Forall (λ c, isLabelChar c = true) text →
  ∃ ref', ∀ rest,
    Posix.scanLinks f (Posix.InText ref seen) (text ++ rest)
    = Posix.scanLinks f (Posix.InText ref' (seen ++ text)) rest.
Proof.
  intros H. revert ref seen.
  induction H as [|c text Hc Htext IH]; intros ref seen.
  - exists ref. intros rest. by rewrite app_nil_r.
  - destruct (IH (ref && negb (Char.isLineTerminator c)) (seen ++ [c]))
      as [ref' Hrest].
    exists ref'. intros rest. simpl.
    assert ((c =? 93)%N = false) as ->.
    { unfold isLabelChar in Hc. by destruct (c =? 91)%N, (c =? 93)%N. }
    by rewrite Hrest, <- app_assoc.
Qed.

Lemma scanLinks_target f seen done target rest :
  Forall (λ c, isTargetChar c = true) target →
  Posix.scanLinks f (Posix.InTarget seen done) (target ++ rest)
  = Posix.scanLinks f (Posix.InTarget seen (done ++ target)) rest.
Proof.
  intros H. revert done.
  induction H as [|c target Hc Htarget IH]; intros done.
  - by rewrite app_nil_r.
  - simpl.
    assert ((c =? 41)%N = false) as ->.
    { unfold isTargetChar in Hc. by destruct (c =? 40)%N, (c =? 41)%N. }
    by rewrite IH, <- app_assoc.
Qed.

Lemma posix_transformLinksLaws cwd : TransformLinksLaws (Posix.imports cwd).
Proof.
  split. intros pre text target post f Hpre Hpost Htext Htarget Hf.
  simpl. unfold Posix.transformLinks, inlineLink. rewrite <- !app_assoc.
  destruct (scanLinks_outside f true pre Hpre) as [start Hscan].
  rewrite Hscan. f_equal. simpl.
  destruct (scanLinks_text f start [91%N] text Htext) as [ref Hlabel].
  rewrite Hlabel. simpl. rewrite <- !app_assoc.
  rewrite scanLinks_target by done. simpl.
  destruct (scanLinks_outside f false post Hpost) as [final Hrest].
  specialize (Hrest []). rewrite app_nil_r in Hrest. simpl in Hrest.
  rewrite Hrest.
  unfold Posix.newTarget. rewrite Hf. simpl.
  destruct (truthy target); by rewrite app_nil_r, <- !app_assoc.
Qed.

(** The claim C4 as worded fails: the callback returns the empty string
    for the link to [missing.md], transform-markdown-links takes an empty
    result as no replacement, and the output holds the link as it was
    written, not a link with an empty target. *)
Lemma unknown_target_is_not_emptied :
  ∃ titles' files1 out,
    titleFiles (I := Sample.posix) Sample.byName noTitles
      [Sample.sub_a_md; Sample.sub_c_md] = Ok (titles', files1)
    ∧ startsWith (lit "http") (lit "missing.md") = false
    ∧ indexOf HASH
        (join (Imports := Sample.posix)
           (dirname (Imports := Sample.posix) (path Sample.sub_c_md))
           (lit "missing.md")) = None
    ∧ fileTitleIndex titles'
        !! join (Imports := Sample.posix)
             (dirname (Imports := Sample.posix) (path Sample.sub_c_md))
             (lit "missing.md") = None
    ∧ concatFiles (I := Sample.posix) Sample.byName
        [Sample.sub_a_md; Sample.sub_c_md] = Ok out
    ∧ out = joinWith [LF]
              [lit "# Sub"; []; lit "## A"; []; lit "text";
               lit "## C"; []; lit "[gone](missing.md)"]
    ∧ includes (lit "[gone]()") out = false.
Proof.
  eexists _, _, _.
  split; [vm_compute; reflexivity |].
  split; [reflexivity |].
  split; [vm_compute; reflexivity |].
  split; [vm_compute; reflexivity |].
  split; [vm_compute; reflexivity |].
  split; [vm_compute; reflexivity |].
  vm_compute. reflexivity.
Qed.

(** C4, as the code has it: for a link that does not start with [http],
    whose resolved target holds no [#] and is no key of the title index,
    the callback returns the empty string and raises nothing;
    transform-markdown-links then leaves the link as it is, so a body
    whose one link it is comes through the link pass unchanged, and the
    run returns its output. *)
Theorem unknown_target_keeps_link {I : Imports} {T : TransformLinksLaws I}
    (this : Config) (titles titles' : Titles) (files files1 : list File)
    (file : File) (pre text link post : str) :
  titleFiles this titles files = Ok (titles', files1) →
  file ∈ files1 →
  body file = pre ++ inlineLink text link ++ post →
  noLinkStart pre → noLinkStart post →
  Forall (λ c, isLabelChar c = true) text →
  Forall (λ c, isTargetChar c = true) link →
  startsWith (lit "http") link = false →
  indexOf HASH (join (dirname (path file)) link) = None →
  fileTitleIndex titles' !! join (dirname (path file)) link = None →
  rewriteLink titles' file link = []
  ∧ modifyLinks titles' file = body file
  ∧ concatFilesFrom this titles files
    = Ok (addGlobalTitleAndToc this
            (joinWith (joinString this) (modifyLinks titles' <$> files1))).
Proof.
  intros Hrun Hin Hbody Hpre Hpost Htext Htarget Hhttp Hhash Hnone.
  assert (rewriteLink titles' file link = []) as Hlink.
  { eapply rewriteLink_lookup_fails; [done | done |]. by apply getTitle_None. }
  split; [done |]. split; [| by apply concatFilesFrom_Ok].
  unfold modifyLinks. rewrite Hbody.
  by apply transformLinks_keeps.
Qed.

Lemma unknown_target_keeps_link_witness :
  ∃ titles' files1 file,
    TransformLinksLaws Sample.posix
    ∧ titleFiles (I := Sample.posix) Sample.byName noTitles
        [Sample.sub_a_md; Sample.sub_c_md] = Ok (titles', files1)
    ∧ files1 !! 1%nat = Some file
    ∧ body file
      = (lit "## C" ++ [LF; LF]) ++ inlineLink (lit "gone") (lit "missing.md")
          ++ []
    ∧ rewriteLink (I := Sample.posix) titles' file (lit "missing.md") = []
    ∧ modifyLinks (I := Sample.posix) titles' file = body file.
Proof.
  destruct (titleFiles (I := Sample.posix) Sample.byName noTitles
              [Sample.sub_a_md; Sample.sub_c_md])
    as [[titles' files1] | e] eqn:Hrun; [| vm_compute in Hrun; discriminate].
  destruct (files1 !! 1%nat) as [file |] eqn:Hfile;
    [| vm_compute in Hrun; injection Hrun as <- <-; discriminate].
  assert (body file
          = (lit "## C" ++ [LF; LF])
              ++ inlineLink (lit "gone") (lit "missing.md") ++ []
          ∧ path file = path Sample.sub_c_md
          ∧ fileTitleIndex titles'
              !! join (Imports := Sample.posix)
                   (dirname (Imports := Sample.posix) (path Sample.sub_c_md))
                   (lit "missing.md") = None) as (Hbody & Hpath & Hnone).
  { vm_compute in Hrun. injection Hrun as <- <-.
    vm_compute in Hfile. injection Hfile as <-.
    repeat split; vm_compute; reflexivity. }
  exists titles', files1, file.
  split; [apply posix_transformLinksLaws |]. split; [done |].
  split; [done |]. split; [exact Hbody |].
  destruct (unknown_target_keeps_link (I := Sample.posix)
              (T := posix_transformLinksLaws (lit "/"))
              Sample.byName noTitles titles'
              [Sample.sub_a_md; Sample.sub_c_md] files1 file
              (lit "## C" ++ [LF; LF]) (lit "gone") (lit "missing.md") []
              Hrun) as (Hlink & Hpass & _); try done.
  - by apply list_elem_of_lookup_2 in Hfile.
  - vm_compute. repeat constructor.
  - constructor.
  - vm_compute. repeat constructor.
  - vm_compute. repeat constructor.
  - rewrite Hpath. vm_compute. reflexivity.
  - by rewrite Hpath.
Defined.




(** C5: the files [a.md] (body [# A], newline) and [sub/b.md] (body
    [[link](../a.md)]), in that order, with [dirNameAsTitle] and
    [fileNameAsTitle] set: the output has a heading line for [Sub], one
    for [B] and one for [A], and the link of [b.md] points to [#a]. *)
Theorem round_trip_scenario (cwd : str) :
  let I := Posix.imports cwd in
  ∃ out titles' files1,
    concatFiles Sample.byName [Sample.a_md; Sample.sub_b_md] = Ok out
    ∧ out = joinWith [LF]
              [lit "# A"; []; lit "# A"; []; lit "# Sub"; [];
               lit "## B"; []; lit "[link](#a)"]
    ∧ lit "# Sub" ∈ split LF out
    ∧ lit "## B" ∈ split LF out
    ∧ lit "# A" ∈ split LF out
    ∧ titleFiles Sample.byName noTitles [Sample.a_md; Sample.sub_b_md]
      = Ok (titles', files1)
    ∧ rewriteLink titles' Sample.sub_b_md (lit "../a.md") = lit "#a".
Proof.
  intros I. eexists _, _, _.
  split; [vm_compute; reflexivity |].
  split; [vm_compute; reflexivity |].
  split; [vm_compute; repeat constructor |].
  split; [vm_compute; repeat constructor |].
  split; [vm_compute; repeat constructor |].
  split; [vm_compute; reflexivity |].
  vm_compute. reflexivity.
Qed.

(** The claim C8 as worded fails for the empty string: it is falsy, so
    the constructor takes it as no join string at all. *)
Lemma empty_joinString_is_not_wrapped :
  let this := new (lit "/docs") (Sample.withJoinString (Some [])) in
  let first := Sample.file "/docs/a.md" (lit "x") in
  let second := Sample.file "/docs/b.md" (lit "y") in
  joinString this = [LF]
  ∧ joinString this ≠ [LF] ++ [] ++ [LF]
  ∧ concatFiles (I := Sample.posix) this [first; second]
    = Ok ((anchor (lit "amd") ++ lit "x") ++ [LF]
            ++ (anchor (lit "bmd") ++ lit "y")).
Proof.
  intros this first second.
  split; [reflexivity |]. split; [discriminate |].
  vm_compute. reflexivity.
Qed.

(** C8, as the code has it: without a [joinString] the bodies are joined
    by one newline; a given non-empty [joinString] is put between
    newlines; an empty one counts as not given; the output is the join of
    the bodies, in order, handed to the title and table-of-contents
    wrapper. *)
Theorem joinString_wraps_nonempty {I : Imports}
    (dir : str) (o : Options.t) (titles : Titles) (files : list File) :
  (Options.joinString o = None → joinString (new dir o) = [LF])
  ∧ (∀ s, Options.joinString o = Some s → s ≠ [] →
       joinString (new dir o) = [LF] ++ s ++ [LF])
  ∧ (Options.joinString o = Some [] → joinString (new dir o) = [LF])
  ∧ (∀ titles' files1,
       titleFiles (new dir o) titles files = Ok (titles', files1) →
       concatFilesFrom (new dir o) titles files
       = Ok (addGlobalTitleAndToc (new dir o)
               (joinWith (joinString (new dir o))
                  (modifyLinks titles' <$> files1))))
  ∧ (∀ j first second rest,
       joinWith j (first :: second :: rest)
       = first ++ j ++ joinWith j (second :: rest)).
Proof.
  split; [| split; [| split; [| split]]].
  - intros H. simpl. by rewrite H.
  - intros s H Hs. simpl. rewrite H. by destruct s.
  - intros H. simpl. by rewrite H.
  - intros titles' files1. apply concatFilesFrom_Ok.
  - done.
Qed.

Lemma joinString_wraps_nonempty_witness :
  joinString (new (lit "/docs") Options.none) = [LF]
  ∧ joinString (new (lit "/docs") (Sample.withJoinString (Some (lit "---"))))
    = [LF] ++ lit "---" ++ [LF]
  ∧ concatFiles (I := Sample.posix)
      (new (lit "/docs") (Sample.withJoinString (Some (lit "---"))))
      [Sample.file "/docs/a.md" (lit "x"); Sample.file "/docs/b.md" (lit "y")]
    = Ok ((anchor (lit "amd") ++ lit "x") ++ ([LF] ++ lit "---" ++ [LF])
            ++ (anchor (lit "bmd") ++ lit "y")).
Proof.
  split; [| split].
  - destruct (joinString_wraps_nonempty (I := Sample.posix) (lit "/docs")
                Options.none noTitles []) as [Hnone _].
    apply Hnone. reflexivity.
  - destruct (joinString_wraps_nonempty (I := Sample.posix) (lit "/docs")
                (Sample.withJoinString (Some (lit "---"))) noTitles [])
      as (_ & Hsome & _).
    apply Hsome; [reflexivity | discriminate].
  - vm_compute. reflexivity.
Defined.

(** * The title deriver *)

(** The claim C1 as worded fails: [sub] has been visited when
    [sub/b.md] is titled, and the level counter is raised for it all the
    same, so the title of the file is at level 2 where the wording gives
    level 1. *)
Lemma visited_dir_still_raises_level :
  ∃ titles1 titles2 entry,
    addTitle (I := Sample.posix) Sample.byName noTitles Sample.sub_a_md
    = Ok titles1
    ∧ getDirParts (I := Sample.posix) Sample.byName Sample.sub_b_md
      = [lit "sub"]
    ∧ lit "sub" ∈ visitedDirs titles1
    ∧ addTitle (I := Sample.posix) Sample.byName titles1 Sample.sub_b_md
      = Ok titles2
    ∧ fileTitleIndex titles2 !! path Sample.sub_b_md = Some entry
    ∧ Entry.level entry = 2%Z
    ∧ levelOfNewDirsTitle (H := Sample.posix) Sample.byName titles1
        Sample.sub_b_md = 1%Z
    ∧ Entry.level entry
      ≠ levelOfNewDirsTitle (H := Sample.posix) Sample.byName titles1
          Sample.sub_b_md.
Proof.
  eexists _, _, _.
  split; [vm_compute; reflexivity |].
  split; [vm_compute; reflexivity |].
  split; [apply (bool_decide_unpack _); vm_compute; exact Logic.I |].
  split; [vm_compute; reflexivity |].
  split; [vm_compute; reflexivity |].
  split; [reflexivity |].
  split; [vm_compute; reflexivity |].
  vm_compute. discriminate.
Qed.

(** C1, as the code has it: with directory titles enabled the level
    counter is raised once for every directory part of the file, visited
    before or not, so the title of the file is at the starting level plus
    the number of its directory parts; a part whose cumulative path has
    been visited only raises the counter, so a file all of whose
    directories have been visited adds its own entry, with its own
    heading or anchor alone, and nothing else. *)
Theorem addTitle_level_counts_every_dir {I : Imports}
    (this : Config) (titles titles' : Titles) (file : File) :
  dirNameAsTitle this = true →
  addTitle this titles file = Ok titles' →
  (∃ entry,
     fileTitleIndex titles' !! path file = Some entry
     ∧ Entry.level entry
       = (startTitleLevelAt this - 1
          + Z.of_nat (length (getDirParts this file))
          + (if hasTitle this file then 1 else 0))%Z)
  ∧ (∀ s part,
       nextDir (currentDir s) part ∈ visitedDirs (loopTitles s) →
       dirStep this s part
       = Ok {| currentDir := nextDir (currentDir s) part;
               loopLevel := (loopLevel s + 1)%Z;
               loopTitleMd := loopTitleMd s;
               loopTitles := loopTitles s |})
  ∧ (Forall (λ d, d ∈ visitedDirs titles)
       (cumulativeDirs [] (getDirParts this file)) →
     ∃ last entry,
       titleOfFile this file
         {| currentDir := last;
            loopLevel :=
              (startTitleLevelAt this - 1
               + Z.of_nat (length (getDirParts this file)))%Z;
            loopTitleMd := [];
            loopTitles := titles |} = Ok entry
       ∧ titles' = withEntry titles (path file) entry).
Proof.
  intros Hdir Hadd. split; [| split; [apply dirStep_seen |]].
  - apply addTitle_Ok in Hadd as (s & entry & Hs & He & _ & ->).
    exists entry. rewrite lookup_insert_eq. split; [done |].
    apply titleDirs_Ok in Hs as (Hlevel & _).
    apply titleOfFile_Ok in He as (-> & _).
    rewrite Hlevel, Hdir. done.
  - intros Hseen. unfold addTitle, titleDirs in Hadd. rewrite Hdir in Hadd.
    destruct (dirLoop_all_seen this (getDirParts this file)
                {| currentDir := [];
                   loopLevel := (startTitleLevelAt this - 1)%Z;
                   loopTitleMd := []; loopTitles := titles |} Hseen)
      as [last Hloop].
    rewrite Hloop in Hadd. simpl in Hadd.
    apply bind_Ok in Hadd as (entry & He & [= <-]).
    exists last, entry. done.
Qed.

Lemma addTitle_level_counts_every_dir_witness :
  ∃ titles1 titles2 entry,
    addTitle (I := Sample.posix) Sample.byName noTitles Sample.sub_a_md
    = Ok titles1
    ∧ dirNameAsTitle Sample.byName = true
    ∧ addTitle (I := Sample.posix) Sample.byName titles1 Sample.sub_b_md
      = Ok titles2
    ∧ fileTitleIndex titles2 !! path Sample.sub_b_md = Some entry
    ∧ Entry.level entry = (1 - 1 + 1 + 1)%Z.
Proof.
  destruct (addTitle (I := Sample.posix) Sample.byName noTitles
              Sample.sub_a_md) as [titles1 | e] eqn:H1;
    [| vm_compute in H1; discriminate].
  destruct (addTitle (I := Sample.posix) Sample.byName titles1
              Sample.sub_b_md) as [titles2 | e] eqn:H2.
  - destruct (addTitle_level_counts_every_dir (I := Sample.posix)
                Sample.byName titles1 titles2 Sample.sub_b_md eq_refl H2)
      as [(entry & He & Hlevel) _].
    exists titles1, titles2, entry.
    split; [done |]. split; [done |]. split; [done |]. split; [done |].
    rewrite Hlevel. vm_compute. reflexivity.
  - vm_compute in H1. injection H1 as <-. vm_compute in H2. discriminate.
Defined.

(** The claim C2 as worded fails: titling the same path a second time
    raises nothing, and the entry of the second time replaces the one of
    the first. *)
Lemma same_path_twice_overwrites :
  ∃ titles1 titles2 out,
    addTitle (I := Sample.posix) Sample.byName noTitles Sample.sub_a_md
    = Ok titles1
    ∧ fileTitleIndex titles1 !! path Sample.sub_a_md
      = Some {| Entry.title := VString (lit "A"); Entry.level := 2;
                Entry.md := lit "# Sub" ++ [LF; LF] ++ lit "## A" ++ [LF; LF] |}
    ∧ addTitle (I := Sample.posix) Sample.byName titles1 Sample.sub_a_md
      = Ok titles2
    ∧ fileTitleIndex titles2 !! path Sample.sub_a_md
      = Some {| Entry.title := VString (lit "A"); Entry.level := 2;
                Entry.md := lit "## A" ++ [LF; LF] |}
    ∧ concatFiles (I := Sample.posix) Sample.byName
        [Sample.sub_a_md; Sample.sub_a_md] = Ok out.
Proof.
  eexists _, _, _.
  split; [vm_compute; reflexivity |].
  split; [vm_compute; reflexivity |].
  split; [vm_compute; reflexivity |].
  split; [vm_compute; reflexivity |].
  vm_compute. reflexivity.
Qed.

Lemma addTitle_ignores_stale {I : Imports} (this : Config)
    (titles : Titles) (file : File) (stale : Entry.t) :
  addTitle this (withEntry titles (path file) stale) file
  = addTitle this titles file.
Proof.
  unfold addTitle.
  assert (alikeResults (path file)
            (titleDirs this (withEntry titles (path file) stale) file)
            (titleDirs this titles file)) as Hdirs.
  { unfold titleDirs. destruct (dirNameAsTitle this).
    - apply dirLoop_alike. repeat split; simpl; auto.
      intros k Hk. by rewrite lookup_insert_ne.
    - repeat split; simpl; auto. intros k Hk. by rewrite lookup_insert_ne. }
  destruct (titleDirs this (withEntry titles (path file) stale) file) as [s1|e1],
    (titleDirs this titles file) as [s2|e2]; simpl in Hdirs; try done;
    [| by subst].
  destruct Hdirs as (_ & Hlevel & Hmd & Hvis & Hidx). simpl.
  assert (titleOfFile this file s1 = titleOfFile this file s2) as ->.
  { unfold titleOfFile. by rewrite Hlevel, Hmd. }
  destruct (titleOfFile this file s2) as [entry|e]; simpl; [| done].
  rewrite Hvis. do 2 f_equal. apply map_eq. intros k.
  rewrite !lookup_insert. case_decide; auto.
Qed.

(** C2, as the code has it: the key of a file is set each time the file
    is titled, whatever the index holds under it, so titling a path again
    raises nothing and replaces the entry.  A directory key is set at
    most once in a run: a directory part whose cumulative path is in the
    visited set leaves the index alone, every part walked is in the set
    afterwards, and the set only grows. *)
Theorem addTitle_sets_file_key {I : Imports}
    (this : Config) (titles : Titles) (file : File) :
  (∀ stale,
     addTitle this (withEntry titles (path file) stale) file
     = addTitle this titles file)
  ∧ (∀ titles',
       addTitle this titles file = Ok titles' →
       is_Some (fileTitleIndex titles' !! path file)
       ∧ visitedDirs titles ⊆ visitedDirs titles')
  ∧ (∀ s part s',
       dirStep this s part = Ok s' →
       nextDir (currentDir s) part ∈ visitedDirs (loopTitles s') ∧
       visitedDirs (loopTitles s) ⊆ visitedDirs (loopTitles s') ∧
       (nextDir (currentDir s) part ∈ visitedDirs (loopTitles s) →
        fileTitleIndex (loopTitles s') = fileTitleIndex (loopTitles s))).
Proof.
  split; [| split].
  - apply addTitle_ignores_stale.
  - intros titles' Hadd. split; [by apply addTitle_records in Hadd as (? & _) |].
    apply addTitle_Ok in Hadd as (s & entry & Hs & _ & -> & _).
    by apply titleDirs_Ok in Hs as (_ & ? & _).
  - intros s part s' Hstep.
    pose proof (dirStep_Ok this s part s' Hstep) as (Hcur & _ & Hin & Hsub & _).
    rewrite <- Hcur. repeat split; [done | done |].
    intros Hseen. rewrite Hcur in Hseen.
    rewrite dirStep_seen in Hstep by done. by injection Hstep as <-.
Qed.

Lemma addTitle_sets_file_key_witness :
  ∃ titles1 titles2,
    addTitle (I := Sample.posix) Sample.byName noTitles Sample.sub_a_md
    = Ok titles1
    ∧ addTitle (I := Sample.posix) Sample.byName
        (withEntry titles1 (path Sample.sub_a_md)
           {| Entry.title := VString (lit "stale"); Entry.level := 7;
              Entry.md := [] |})
        Sample.sub_a_md
      = Ok titles2
    ∧ is_Some (fileTitleIndex titles2 !! path Sample.sub_a_md)
    ∧ visitedDirs titles1 ⊆ visitedDirs titles2.
Proof.
  destruct (addTitle (I := Sample.posix) Sample.byName noTitles
              Sample.sub_a_md) as [titles1 | e] eqn:H1;
    [| vm_compute in H1; discriminate].
  destruct (addTitle (I := Sample.posix) Sample.byName titles1
              Sample.sub_a_md) as [titles2 | e] eqn:H2.
  - destruct (addTitle_sets_file_key (I := Sample.posix) Sample.byName
                titles1 Sample.sub_a_md) as (Hstale & Hset & _).
    exists titles1, titles2. split; [done |].
    split; [by rewrite Hstale |]. by apply Hset.
  - vm_compute in H1. injection H1 as <-. vm_compute in H2. discriminate.
Defined.

(** * Further properties of [gitHubLink] *)

Lemma stripEnd_app_all p s w :
  Forall (λ c, p c = true) w → stripEnd p (s ++ w) = stripEnd p s.
Proof.
  intros Hw. induction s as [|c s IH]; simpl.
  - induction Hw as [|d w Hd Hw IH]; simpl; [done |].
    by rewrite IH, Hd.
  - by rewrite IH.
Qed.

Lemma stripStart_app_all p w s :
  Forall (λ c, p c = true) w → stripStart p (w ++ s) = stripStart p s.
Proof. induction 1 as [|d w Hd Hw IH]; simpl; [done | by rewrite Hd]. Qed.

Lemma stripStart_app p s w :
  stripStart p (s ++ w)
  = match stripStart p s with
    | [] => stripStart p w
    | kept => kept ++ w
    end.
Proof.
  induction s as [|c s IH]; simpl; [by destruct (stripStart p w) |].
  destruct (p c); [done |]. done.
Qed.

Lemma stripStart_all p w : Forall (λ c, p c = true) w → stripStart p w = [].
Proof. induction 1 as [|d w Hd Hw IH]; simpl; [done | by rewrite Hd]. Qed.

Lemma trim_padded s before after :
  Forall (λ c, Char.isWhiteSpace c = true) before →
  Forall (λ c, Char.isWhiteSpace c = true) after →
  trim (before ++ s ++ after) = trim s.
Proof.
  intros Hb Ha. unfold trim.
  rewrite stripStart_app_all by done. rewrite stripStart_app.
  destruct (stripStart Char.isWhiteSpace s) as [|c kept] eqn:E.
  - by rewrite stripStart_all.
  - by rewrite stripEnd_app_all.
Qed.

Lemma stripEnd_last p s c : last (stripEnd p s) = Some c → p c = false.
Proof.
  induction s as [|d s IH]; simpl; [done |].
  destruct (stripEnd p s) as [|e kept] eqn:E.
  - destruct (p d) eqn:Ed; simpl; [done |]. by intros [= <-].
  - intros H. apply IH. by destruct kept.
Qed.

(** X1: a slug holds only lower-case Latin letters, digits, underscores
    and hyphens, and does not end in a hyphen, whatever the text. *)
Theorem gitHubLink_alphabet {I : Imports} {L : LowerCaseLaws I} (val : str) :
  Forall (λ c, Char.isSlugChar c = true) (gitHubLink val)
  ∧ last (gitHubLink val) ≠ Some HYPHEN.
Proof.
  split; [apply gitHubLink_slug |].
  intros H. unfold gitHubLink in H. by apply stripEnd_last in H.
Qed.

Lemma gitHubLink_alphabet_witness :
  LowerCaseLaws Sample.posix
  ∧ Forall (λ c, Char.isSlugChar c = true)
      (gitHubLink (I := Sample.posix) (lit "What's New? - "))
  ∧ last (gitHubLink (I := Sample.posix) (lit "What's New? - ")) ≠ Some HYPHEN.
Proof.
  split; [apply posix_lowerCaseLaws |].
  apply (gitHubLink_alphabet (I := Sample.posix)
           (L := posix_lowerCaseLaws (lit "/"))).
Defined.

(** X2: white space around the text does not change the slug. *)
Theorem gitHubLink_ignores_padding {I : Imports} (val before after : str) :
  Forall (λ c, Char.isWhiteSpace c = true) before →
  Forall (λ c, Char.isWhiteSpace c = true) after →
  gitHubLink (before ++ val ++ after) = gitHubLink val.
Proof.
  intros Hb Ha. unfold gitHubLink. by rewrite trim_padded.
Qed.

Lemma gitHubLink_ignores_padding_witness :
  Forall (λ c, Char.isWhiteSpace c = true) [SPACE; 9%N]
  ∧ Forall (λ c, Char.isWhiteSpace c = true) [LF]
  ∧ gitHubLink (I := Sample.posix) ([SPACE; 9%N] ++ lit "Read Me" ++ [LF])
    = gitHubLink (I := Sample.posix) (lit "Read Me").
Proof.
  assert (Forall (λ c, Char.isWhiteSpace c = true) [SPACE; 9%N]) as Hb
    by (repeat constructor).
  assert (Forall (λ c, Char.isWhiteSpace c = true) [LF]) as Ha
    by (repeat constructor).
  split; [exact Hb |]. split; [exact Ha |].
  apply gitHubLink_ignores_padding; [exact Hb | exact Ha].
Defined.

(** * Further properties of the heading level rewriter *)

Lemma replaceHashRuns_at_terminator extra p s c t :
  Char.isLineTerminator c = true →
  replaceHashRuns extra p (s ++ c :: t)
  = replaceHashRuns extra p s ++ c :: replaceHashRuns extra LineStart t.
Proof.
  intros Hc.
  assert ((c =? HASH)%N = false) as Hne.
  { destruct (N.eqb_spec c HASH) as [-> |]; [| done]. by vm_compute in Hc. }
  revert p. induction s as [|d s IH]; intros p; simpl.
  - by rewrite Hne, Hc.
  - destruct (d =? HASH)%N.
    + by rewrite IH.
    + by rewrite IH, <- app_assoc.
Qed.

Lemma replaceHashRuns_plain extra s :
  Forall (λ c, Char.isLineTerminator c = false) s →
  replaceHashRuns extra Inside s = s.
Proof.
  intros H. rewrite <- (app_nil_r s) at 1.
  rewrite replaceHashRuns_inside by done. simpl. apply app_nil_r.
Qed.

Lemma replaceHashRuns_afterHashes extra line :
  Forall (λ c, Char.isLineTerminator c = false) line →
  replaceHashRuns extra InRun line = afterHashes extra line.
Proof.
  induction 1 as [|c line Hc Hline IH]; simpl; [done |].
  destruct (c =? HASH)%N; [by rewrite IH |].
  by rewrite Hc, replaceHashRuns_plain.
Qed.

Lemma replaceHashRuns_line extra line :
  Forall (λ c, Char.isLineTerminator c = false) line →
  replaceHashRuns extra LineStart line = shiftLine extra line.
Proof.
  intros H. destruct H as [|c line Hc Hline]; simpl; [done |].
  destruct (c =? HASH)%N.
  - by rewrite replaceHashRuns_afterHashes.
  - by rewrite Hc, replaceHashRuns_plain.
Qed.

Lemma replaceHashRuns_lines extra lines :
  Forall (Forall (λ c, Char.isLineTerminator c = false)) lines →
  replaceHashRuns extra LineStart (joinWith [LF] lines)
  = joinWith [LF] (shiftLine extra <$> lines).
Proof.
  induction 1 as [|line lines Hline Hlines IH]; [done |].
  destruct lines as [|next lines].
  - simpl. by apply replaceHashRuns_line.
  - change (joinWith [LF] (line :: next :: lines))
      with (line ++ LF :: joinWith [LF] (next :: lines)).
    rewrite replaceHashRuns_at_terminator by done.
    rewrite IH, replaceHashRuns_line by done. done.
Qed.

(** X3: with level-decreasing enabled and a positive level, a body is
    rewritten line by line: each line that begins with [#] gets the extra
    [#] characters after its leading run, every other line stays. *)
Theorem decreaseTitleLevelsBy_by_line
    (this : Config) (lines : list str) (level : Z) :
  decreaseTitleLevels this = true → (0 < level)%Z →
  Forall (Forall (λ c, Char.isLineTerminator c = false)) lines →
  decreaseTitleLevelsBy this (joinWith [LF] lines) level
  = joinWith [LF] (shiftLine (replicate (Z.to_nat level) HASH) <$> lines).
Proof.
  intros Hd Hlevel Hlines.
  rewrite decreaseTitleLevelsBy_shift by done.
  by apply replaceHashRuns_lines.
Qed.

Lemma decreaseTitleLevelsBy_by_line_witness :
  decreaseTitleLevels Sample.decreasing = true ∧ (0 < 2)%Z
  ∧ Forall (Forall (λ c, Char.isLineTerminator c = false))
      [lit "# Title"; lit "a #tag"; []; lit "## Part"]
  ∧ decreaseTitleLevelsBy Sample.decreasing
      (joinWith [LF] [lit "# Title"; lit "a #tag"; []; lit "## Part"]) 2
    = joinWith [LF] [lit "### Title"; lit "a #tag"; []; lit "#### Part"].
Proof.
  assert (Forall (Forall (λ c, Char.isLineTerminator c = false))
            [lit "# Title"; lit "a #tag"; []; lit "## Part"]) as Hlines
    by (vm_compute; repeat constructor).
  split; [reflexivity |]. split; [lia |]. split; [exact Hlines |].
  rewrite decreaseTitleLevelsBy_by_line by (reflexivity || lia || exact Hlines).
  vm_compute. reflexivity.
Defined.

Lemma replaceHashRuns_keeps_rest n p s :
  List.filter (λ c, negb (c =? HASH)%N)
    (replaceHashRuns (replicate n HASH) p s)
  = List.filter (λ c, negb (c =? HASH)%N) s
  ∧ sublist s (replaceHashRuns (replicate n HASH) p s).
Proof.
  assert (∀ q, List.filter (λ c, negb (c =? HASH)%N)
                 (closeRun (replicate n HASH) q) = []) as Hclose.
  { intros [| |]; simpl; try done.
    induction n as [|n IH]; simpl; [done | exact IH]. }
  revert p. induction s as [|c s IH]; intros p; simpl.
  - split; [apply Hclose | apply sublist_nil_l].
  - destruct (c =? HASH)%N eqn:E.
    + destruct (IH (match p with Inside => Inside | _ => InRun end)) as [Hf Hs].
      simpl. rewrite E. simpl. split; [done | by apply sublist_skip].
    + destruct (IH (if Char.isLineTerminator c then LineStart else Inside))
        as [Hf Hs].
      split.
      * rewrite List.filter_app, Hclose. simpl. rewrite E. simpl. by rewrite Hf.
      * apply sublist_inserts_l. by apply sublist_skip.
Qed.

(** X4: the rewriter only ever adds [#] characters: the body is a
    subsequence of the result, and both hold the same characters other
    than [#], in the same order. *)
Theorem decreaseTitleLevelsBy_only_adds_hashes
    (this : Config) (body : str) (level : Z) :
  sublist body (decreaseTitleLevelsBy this body level)
  ∧ List.filter (λ c, negb (c =? HASH)%N) (decreaseTitleLevelsBy this body level)
    = List.filter (λ c, negb (c =? HASH)%N) body.
Proof.
  unfold decreaseTitleLevelsBy.
  destruct (negb (decreaseTitleLevels this) || (level <=? 0)%Z); [done |].
  destruct (replaceHashRuns_keeps_rest (Z.to_nat level) LineStart body). done.
Qed.

(** * Errors of a run *)


Section ThrowFacts.
Context {I : Imports} (this : Config).








End ThrowFacts.



(** X7: without directory titles, a file that gets a title makes the run
    fail as soon as [startTitleLevelAt] is negative. *)
Theorem negative_start_throws {I : Imports}
    (this : Config) (titles : Titles) (file : File) (rest : list File) :
  dirNameAsTitle this = false → hasTitle this file = true →
  (startTitleLevelAt this < 0)%Z →
  ∃ msg, concatFilesFrom this titles (file :: rest) = Throw (RangeError msg).
Proof.
  intros Hdir Htitle Hstart.
  exists (lit "Invalid count value: "
            ++ lit (pretty (startTitleLevelAt this - 1 + 1)%Z)).
  unfold concatFilesFrom. simpl. unfold titleFile, addTitle, titleDirs.
  rewrite Hdir. simpl. unfold titleOfFile. rewrite Htitle. simpl.
  unfold repeatHash.
  destruct (Z.ltb_spec (startTitleLevelAt this - 1 + 1) 0); [done | lia].
Qed.

Lemma negative_start_throws_witness :
  dirNameAsTitle (More.flat (-1)) = false
  ∧ hasTitle (More.flat (-1)) More.guide_md = true
  ∧ (startTitleLevelAt (More.flat (-1)) < 0)%Z
  ∧ ∃ msg,
      concatFiles (I := Sample.posix) (More.flat (-1))
        (More.guide_md :: [More.api_index_md])
      = Throw (RangeError msg).
Proof.
  split; [reflexivity |]. split; [reflexivity |]. split; [reflexivity |].
  apply (negative_start_throws (I := Sample.posix)); reflexivity.
Defined.

(** * What the first pass records *)

Section IndexFacts.
Context {I : Imports} (this : Config).

Lemma addTitle_flat titles file :
  dirNameAsTitle this = false →
  addTitle this titles file
  = (entry ← titleOfFile this file (loopStart this noTitles);
     Ok (withEntry titles (path file) entry)).
Proof. intros H. unfold addTitle, titleDirs. by rewrite H. Qed.

Lemma dirStep_visited s part s' :
  dirStep this s part = Ok s' →
  ∀ d, d ∈ visitedDirs (loopTitles s') ↔
       d ∈ visitedDirs (loopTitles s) ∨ d = nextDir (currentDir s) part.
Proof.
  unfold dirStep. case_decide as Hin.
  - intros [= <-] d. simpl. split; [auto | by intros [? | ->]].
  - intros (prefix & _ & [= <-])%bind_Ok d. simpl.
    rewrite elem_of_union, elem_of_singleton. tauto.
Qed.

Lemma dirLoop_visited parts s s' :
  forEach (dirStep this) parts s = Ok s' →
  ∀ d, d ∈ visitedDirs (loopTitles s') ↔
       d ∈ visitedDirs (loopTitles s) ∨ d ∈ cumulativeDirs (currentDir s) parts.
Proof.
  revert s. induction parts as [|part parts IH]; intros s; simpl.
  - intros [= <-] d. rewrite elem_of_nil. tauto.
  - intros (s1 & Hstep & Hrest)%bind_Ok d.
    rewrite (IH _ Hrest), (dirStep_visited _ _ _ Hstep), elem_of_cons.
    apply dirStep_Ok in Hstep as (-> & _). tauto.
Qed.

Lemma dirStep_recorded s part s' :
  dirStep this s part = Ok s' →
  dirsRecorded this (loopTitles s) → dirsRecorded this (loopTitles s').
Proof.
  unfold dirStep. case_decide as Hin.
  - by intros [= <-].
  - intros (prefix & _ & [= <-])%bind_Ok Hrec d. simpl.
    rewrite elem_of_union, elem_of_singleton, lookup_insert.
    intros [-> | Hd]; case_decide; eauto. done.
Qed.

Lemma dirLoop_recorded parts s s' :
  forEach (dirStep this) parts s = Ok s' →
  dirsRecorded this (loopTitles s) → dirsRecorded this (loopTitles s').
Proof.
  revert s. induction parts as [|part parts IH]; intros s; simpl.
  - by intros [= <-].
  - intros (s1 & Hstep & Hrest)%bind_Ok Hrec.
    eapply IH; [done |]. by eapply dirStep_recorded.
Qed.

Lemma addTitle_visited titles file titles' :
  addTitle this titles file = Ok titles' →
  ∀ d, d ∈ visitedDirs titles' ↔
       d ∈ visitedDirs titles
       ∨ (dirNameAsTitle this = true
          ∧ d ∈ cumulativeDirs [] (getDirParts this file)).
Proof.
  intros (s & entry & Hs & _ & -> & _)%addTitle_Ok d.
  unfold titleDirs in Hs. destruct (dirNameAsTitle this).
  - rewrite (dirLoop_visited _ _ _ Hs). simpl. tauto.
  - injection Hs as <-. simpl. split; [auto | by intros [? | [? _]]].
Qed.

Lemma addTitle_recorded titles file titles' :
  addTitle this titles file = Ok titles' →
  dirsRecorded this titles →
  dirsRecorded this titles'
  ∧ ∀ k, k ∈ dirKeys this file → is_Some (fileTitleIndex titles' !! k).
Proof.
  intros Hadd Hrec.
  pose proof (addTitle_visited _ _ _ Hadd) as Hvis.
  apply addTitle_Ok in Hadd as (s & entry & Hs & _ & Hv & Hidx).
  assert (dirsRecorded this (loopTitles s)) as Hrec'.
  { unfold titleDirs in Hs. destruct (dirNameAsTitle this).
    - by eapply dirLoop_recorded.
    - by injection Hs as <-. }
  assert (dirsRecorded this titles') as Hall.
  { intros d Hd. rewrite Hidx, lookup_insert. case_decide; [eauto |].
    apply Hrec'. by rewrite <- Hv. }
  split; [done |].
  unfold dirKeys. destruct (dirNameAsTitle this) eqn:Hdir.
  - intros k (d & -> & Hd)%list_elem_of_fmap. apply Hall, Hvis. auto.
  - intros k Hk. by apply elem_of_nil in Hk.
Qed.

Lemma addTitle_new_key titles file titles' k :
  addTitle this titles file = Ok titles' →
  is_Some (fileTitleIndex titles' !! k) →
  is_Some (fileTitleIndex titles !! k) ∨ k = path file ∨ k ∈ dirKeys this file.
Proof.
  intros (_ & _ & Hother)%addTitle_records Hk.
  destruct (decide (k = path file)) as [-> | Hne]; [auto |].
  destruct (decide (k ∈ dirKeys this file)) as [Hin | Hout]; [auto |].
  left. by rewrite <- Hother.
Qed.

Lemma titleFiles_keys titles files titles' files1 :
  titleFiles this titles files = Ok (titles', files1) →
  dirsRecorded this titles →
  dirsRecorded this titles'
  ∧ (∀ d, d ∈ visitedDirs titles' ↔
          d ∈ visitedDirs titles
          ∨ (dirNameAsTitle this = true
             ∧ ∃ file, file ∈ files
                 ∧ d ∈ cumulativeDirs [] (getDirParts this file)))
  ∧ (∀ k, is_Some (fileTitleIndex titles' !! k) ↔
          is_Some (fileTitleIndex titles !! k)
          ∨ ∃ file, file ∈ files ∧ (k = path file ∨ k ∈ dirKeys this file)).
Proof.
  revert titles files1. induction files as [|f files IH]; intros titles files1.
  - simpl. intros [= <- <-] Hrec. split; [done |]. split.
    + intros d. split; [auto |]. intros [? | (_ & ? & Hin & _)]; [done |].
      by apply elem_of_nil in Hin.
    + intros k. split; [auto |]. intros [? | (? & Hin & _)]; [done |].
      by apply elem_of_nil in Hin.
  - intros (t1 & f1 & r1 & Hf & Hrest & ->)%titleFiles_cons Hrec.
    apply titleFile_Ok in Hf as (entry & Hadd & _ & _).
    destruct (addTitle_recorded _ _ _ Hadd Hrec) as [Hrec1 Hkeys].
    destruct (IH _ _ Hrest Hrec1) as (Hrec' & Hvis & Hdom).
    destruct (addTitle_records _ _ _ _ Hadd) as (Hown & Hmono & _).
    split; [done |]. split.
    + intros d. rewrite Hvis, (addTitle_visited _ _ _ Hadd). split.
      * intros [[? | [? ?]] | (? & file & ? & ?)]; [auto | |].
        -- right. split; [done |]. exists f. split; [left | done].
        -- right. split; [done |]. exists file. split; [by right | done].
      * intros [? | (? & file & [-> | ?]%elem_of_cons & ?)]; [auto | auto |].
        right. eauto.
    + intros k. rewrite Hdom. split.
      * intros [Hk | (file & ? & ?)].
        -- apply (addTitle_new_key _ _ _ _ Hadd) in Hk as [? | Hk]; [auto |].
           right. exists f. split; [left | done].
        -- right. exists file. split; [by right | done].
      * intros [Hk | (file & [-> | Hin]%elem_of_cons & Hk)].
        -- left. by apply Hmono.
        -- left. destruct Hk as [-> | Hk]; [done | by apply Hkeys].
        -- right. eauto.
Qed.

Lemma titleFiles_Forall2 (P : File → File → Prop) titles files titles' files1 :
  (∀ t file t' file1, titleFile this t file = Ok (t', file1) → P file file1) →
  titleFiles this titles files = Ok (titles', files1) →
  Forall2 P files files1.
Proof.
  intros HP. revert titles files1.
  induction files as [|f files IH]; intros titles files1.
  - simpl. intros [= <- <-]. constructor.
  - intros (t1 & f1 & r1 & Hf & Hrest & ->)%titleFiles_cons.
    constructor; [by eapply HP | by eapply IH].
Qed.

End IndexFacts.

(** X8: after the first pass of a fresh concatenator the keys of the
    title index are the paths of the files and the keys of their
    directories, and nothing else. *)
Theorem index_keys_after_first_pass {I : Imports}
    (this : Config) (files files1 : list File) (titles' : Titles) (k : str) :
  titleFiles this noTitles files = Ok (titles', files1) →
  is_Some (fileTitleIndex titles' !! k)
  ↔ ∃ file, file ∈ files ∧ (k = path file ∨ k ∈ dirKeys this file).
Proof.
  intros Hrun.
  destruct (titleFiles_keys this noTitles files titles' files1 Hrun)
    as (_ & _ & Hdom).
  { intros d Hd. by apply not_elem_of_empty in Hd. }
  rewrite Hdom. simpl. rewrite lookup_empty. split; [| auto].
  intros [[? [=]] | ?]. done.
Qed.

Lemma index_keys_after_first_pass_witness :
  ∃ titles' files1,
    titleFiles (I := Sample.posix) Sample.byName noTitles
      [Sample.a_md; Sample.sub_b_md] = Ok (titles', files1)
    ∧ is_Some (fileTitleIndex titles' !! lit "/docs/sub")
    ∧ ¬ is_Some (fileTitleIndex titles' !! lit "/docs").
Proof.
  destruct (titleFiles (I := Sample.posix) Sample.byName noTitles
              [Sample.a_md; Sample.sub_b_md])
    as [[titles' files1] | e] eqn:Hrun; [| vm_compute in Hrun; discriminate].
  exists titles', files1. split; [done |].
  pose proof (index_keys_after_first_pass (I := Sample.posix) Sample.byName
                [Sample.a_md; Sample.sub_b_md] files1 titles') as Hkeys.
  split.
  - apply (Hkeys (lit "/docs/sub") Hrun). exists Sample.sub_b_md.
    split; [right; left |]. right. vm_compute. left.
  - intros Hk. apply (Hkeys (lit "/docs") Hrun) in Hk as (file & Hin & Hk).
    apply elem_of_cons in Hin as [-> | Hin].
    + destruct Hk as [Hk | Hk]; vm_compute in Hk; [discriminate |].
      by apply elem_of_nil in Hk.
    + apply list_elem_of_singleton in Hin as ->.
      destruct Hk as [Hk | Hk]; vm_compute in Hk; [discriminate |].
      apply list_elem_of_singleton in Hk. discriminate.
Defined.

(** X9: after the first pass of a fresh concatenator the visited
    directories are the cumulative directories of the files when
    [dirNameAsTitle] is set, and none otherwise. *)
Theorem visitedDirs_after_first_pass {I : Imports}
    (this : Config) (files files1 : list File) (titles' : Titles) (d : str) :
  titleFiles this noTitles files = Ok (titles', files1) →
  d ∈ visitedDirs titles'
  ↔ dirNameAsTitle this = true
    ∧ ∃ file, file ∈ files ∧ d ∈ cumulativeDirs [] (getDirParts this file).
Proof.
  intros Hrun.
  destruct (titleFiles_keys this noTitles files titles' files1 Hrun)
    as (_ & Hvis & _).
  { intros d' Hd. by apply not_elem_of_empty in Hd. }
  rewrite Hvis. simpl. split; [| auto].
  intros [Hd | ?]; [| done]. by apply not_elem_of_empty in Hd.
Qed.

Lemma visitedDirs_after_first_pass_witness :
  ∃ titles' files1,
    titleFiles (I := Sample.posix) Sample.byName noTitles
      [Sample.a_md; Sample.sub_b_md] = Ok (titles', files1)
    ∧ lit "sub" ∈ visitedDirs titles'.
Proof.
  destruct (titleFiles (I := Sample.posix) Sample.byName noTitles
              [Sample.a_md; Sample.sub_b_md])
    as [[titles' files1] | e] eqn:Hrun; [| vm_compute in Hrun; discriminate].
  exists titles', files1. split; [done |].
  apply (visitedDirs_after_first_pass (I := Sample.posix) Sample.byName
           [Sample.a_md; Sample.sub_b_md] files1 titles' (lit "sub") Hrun).
  split; [reflexivity |]. exists Sample.sub_b_md.
  split; [right; left |]. vm_compute. left.
Defined.

(** * Files in the first pass *)

Section FileFacts.
Context {I : Imports} (this : Config).

Lemma titleFile_flat titles file :
  dirNameAsTitle this = false →
  titleFile this titles file
  = (entry ← titleOfFile this file (loopStart this noTitles);
     Ok (withEntry titles (path file) entry,
         withBody file
           (Entry.md entry
              ++ decreaseTitleLevelsBy this (body file) (Entry.level entry)))).
Proof.
  intros H. unfold titleFile. rewrite addTitle_flat by done.
  destruct (titleOfFile this file (loopStart this noTitles)) as [entry|e];
    [| done].
  simpl. unfold getTitle. simpl. by rewrite lookup_insert_eq.
Qed.

Lemma titleFiles_flat titles files titles' files1 :
  dirNameAsTitle this = false →
  titleFiles this titles files = Ok (titles', files1) →
  visitedDirs titles' = visitedDirs titles
  ∧ Forall2 (λ file file1, ∃ t, titleFile this noTitles file = Ok (t, file1))
      files files1.
Proof.
  intros Hdir. revert titles files1.
  induction files as [|f files IH]; intros titles files1.
  - simpl. intros [= <- <-]. split; [done | constructor].
  - intros (t1 & f1 & r1 & Hf & Hrest & ->)%titleFiles_cons.
    apply IH in Hrest as [Hvis Hall].
    rewrite titleFile_flat in Hf by done.
    apply bind_Ok in Hf as (entry & He & [= <- <-]).
    split; [done |]. constructor; [| done].
    rewrite titleFile_flat by done. rewrite He. simpl. eauto.
Qed.

Lemma addTitle_title titles file titles' :
  addTitle this titles file = Ok titles' →
  ∃ entry,
    fileTitleIndex titles' !! path file = Some entry
    ∧ Entry.title entry = derivedTitle this file.
Proof.
  intros (s & entry & _ & He & _ & ->)%addTitle_Ok.
  exists entry. rewrite lookup_insert_eq. split; [done |].
  unfold titleOfFile, hasTitle in He. unfold derivedTitle.
  destruct (truthyValue (default (VString []) (titleFromMeta this file)));
    simpl in He.
  - by apply bind_Ok in He as (prefix & _ & [= <-]).
  - destruct (fileNameAsTitle this).
    + by apply bind_Ok in He as (prefix & _ & [= <-]).
    + by injection He as <-.
Qed.

End FileFacts.

(** X10: without directory titles the first pass treats every file on
    its own: the body it gives a file is the one the file would get as
    the only file of a run, and no directory is marked visited. *)
Theorem flat_first_pass_is_per_file {I : Imports}
    (this : Config) (titles titles' : Titles) (files files1 : list File) :
  dirNameAsTitle this = false →
  titleFiles this titles files = Ok (titles', files1) →
  visitedDirs titles' = visitedDirs titles
  ∧ Forall2 (λ file file1, ∃ t, titleFile this noTitles file = Ok (t, file1))
      files files1.
Proof. apply titleFiles_flat. Qed.

Lemma flat_first_pass_is_per_file_witness :
  ∃ titles' files1,
    dirNameAsTitle (More.flat 1) = false
    ∧ titleFiles (I := Sample.posix) (More.flat 1) noTitles
        [More.guide_md; More.api_index_md] = Ok (titles', files1)
    ∧ visitedDirs titles' = ∅
    ∧ Forall2
        (λ file file1,
           ∃ t, titleFile (I := Sample.posix) (More.flat 1) noTitles file
                = Ok (t, file1))
        [More.guide_md; More.api_index_md] files1.
Proof.
  destruct (titleFiles (I := Sample.posix) (More.flat 1) noTitles
              [More.guide_md; More.api_index_md])
    as [[titles' files1] | e] eqn:Hrun; [| vm_compute in Hrun; discriminate].
  exists titles', files1. split; [reflexivity |]. split; [done |].
  exact (flat_first_pass_is_per_file (I := Sample.posix) (More.flat 1)
           noTitles titles' [More.guide_md; More.api_index_md] files1
           eq_refl Hrun).
Defined.

(** X11: the first pass keeps the files in order with their paths and
    attributes, and the body of each ends with its former body, heading
    levels decreased. *)
Theorem first_pass_keeps_files {I : Imports}
    (this : Config) (titles titles' : Titles) (files files1 : list File) :
  titleFiles this titles files = Ok (titles', files1) →
  Forall2
    (λ file file1,
       path file1 = path file ∧ attributes file1 = attributes file
       ∧ ∃ level,
           decreaseTitleLevelsBy this (body file) level `suffix_of` body file1)
    files files1.
Proof.
  apply titleFiles_Forall2.
  intros t file t' file1 (entry & _ & _ & ->)%titleFile_Ok. simpl.
  split; [done |]. split; [done |].
  exists (Entry.level entry). by apply suffix_app_r.
Qed.

Lemma first_pass_keeps_files_witness :
  ∃ titles' files1,
    titleFiles (I := Sample.posix) Sample.byName noTitles
      [Sample.a_md; Sample.sub_b_md] = Ok (titles', files1)
    ∧ path <$> files1 = [lit "/docs/a.md"; lit "/docs/sub/b.md"].
Proof.
  destruct (titleFiles (I := Sample.posix) Sample.byName noTitles
              [Sample.a_md; Sample.sub_b_md])
    as [[titles' files1] | e] eqn:Hrun; [| vm_compute in Hrun; discriminate].
  exists titles', files1. split; [done |].
  pose proof (first_pass_keeps_files (I := Sample.posix) Sample.byName
                noTitles titles' [Sample.a_md; Sample.sub_b_md] files1 Hrun)
    as Hall.
  inversion Hall as [| ? f1 ? r1 (Hp1 & _) Hrest]; subst.
  inversion Hrest as [| ? f2 ? r2 (Hp2 & _) Hnil]; subst.
  inversion Hnil; subst. simpl. by rewrite Hp1, Hp2.
Defined.

(** X12: the title recorded for a file is the truthy value of the
    metadata key, else the title-cased file name when [fileNameAsTitle]
    is set, else the slug of the relative path.  Provided no file titled
    later records another entry under the path, the callback gives a link
    without fragment that resolves to the file [#] and the slug of that
    title when the title is a string, and the empty string when it is a
    metadata value of another kind, whose [TypeError] is caught. *)
Theorem link_to_processed_file {I : Imports}
    (this : Config) (pre post : list File) (file : File)
    (titles' : Titles) (files1 : list File) :
  titleFiles this noTitles (pre ++ file :: post) = Ok (titles', files1) →
  (∀ later, later ∈ post →
     path file ≠ path later ∧ path file ∉ dirKeys this later) →
  (∃ entry,
     fileTitleIndex titles' !! path file = Some entry
     ∧ Entry.title entry = derivedTitle this file)
  ∧ ∀ (from : File) (link : str),
      startsWith (lit "http") link = false →
      join (dirname (path from)) link = path file →
      indexOf HASH (path file) = None →
      (∀ title, derivedTitle this file = VString title →
         rewriteLink titles' from link = HASH :: gitHubLink title)
      ∧ (∀ text, derivedTitle this file = VOther true text →
           rewriteLink titles' from link = []).
Proof.
  intros Hrun Hlater.
  apply titleFiles_app in Hrun as (t1 & pre1 & post1 & _ & Hrun & _ & _).
  apply titleFiles_cons in Hrun as (t2 & f1 & r1 & Hfile & Hpost & _).
  apply titleFile_Ok in Hfile as (_ & Hadd & _ & _).
  apply addTitle_title in Hadd as (entry & Hentry & Htitle).
  apply titleFiles_records in Hpost as (_ & _ & Hkeep).
  rewrite <- (Hkeep (path file) Hlater) in Hentry.
  split; [eauto |].
  intros from link Hhttp Htarget Hhash. unfold rewriteLink.
  rewrite Hhttp, Htarget, Hhash. simpl. unfold getTitle.
  rewrite Hentry. simpl. rewrite Htitle.
  split; intros ? ->; done.
Qed.

Lemma link_to_processed_file_witness :
  (∃ titles' files1,
     titleFiles (I := Sample.posix) (More.flat 1) noTitles
       ([] ++ More.guide_md :: [More.api_index_md]) = Ok (titles', files1)
     ∧ derivedTitle (H := Sample.posix) (More.flat 1) More.guide_md
       = VString (lit "User Guide")
     ∧ rewriteLink (I := Sample.posix) titles' More.api_index_md
         (lit "../guide.md") = lit "#user-guide")
  ∧ (∃ titles' files1,
       titleFiles (I := Sample.posix) (More.flat 1) noTitles
         ([] ++ More.year_md :: [More.api_index_md]) = Ok (titles', files1)
       ∧ derivedTitle (H := Sample.posix) (More.flat 1) More.year_md
         = VOther true (lit "2021")
       ∧ rewriteLink (I := Sample.posix) titles' More.api_index_md
           (lit "../year.md") = []).
Proof.
  split.
  - destruct (titleFiles (I := Sample.posix) (More.flat 1) noTitles
                ([] ++ More.guide_md :: [More.api_index_md]))
      as [[titles' files1] | e] eqn:Hrun; [| vm_compute in Hrun; discriminate].
    exists titles', files1. split; [done |]. split; [vm_compute; reflexivity |].
    destruct (link_to_processed_file (I := Sample.posix) (More.flat 1) []
                [More.api_index_md] More.guide_md titles' files1 Hrun)
      as [_ Hlink].
    { intros later ->%list_elem_of_singleton. split; [discriminate |].
      intros Hin. vm_compute in Hin. by apply elem_of_nil in Hin. }
    destruct (Hlink More.api_index_md (lit "../guide.md")) as [Hstring _];
      [vm_compute; reflexivity ..|].
    rewrite (Hstring (lit "User Guide")) by (vm_compute; reflexivity).
    vm_compute. reflexivity.
  - destruct (titleFiles (I := Sample.posix) (More.flat 1) noTitles
                ([] ++ More.year_md :: [More.api_index_md]))
      as [[titles' files1] | e] eqn:Hrun; [| vm_compute in Hrun; discriminate].
    exists titles', files1. split; [done |]. split; [vm_compute; reflexivity |].
    destruct (link_to_processed_file (I := Sample.posix) (More.flat 1) []
                [More.api_index_md] More.year_md titles' files1 Hrun)
      as [_ Hlink].
    { intros later ->%list_elem_of_singleton. split; [discriminate |].
      intros Hin. vm_compute in Hin. by apply elem_of_nil in Hin. }
    destruct (Hlink More.api_index_md (lit "../year.md")) as [_ Hother];
      [vm_compute; reflexivity ..|].
    apply (Hother (lit "2021")). vm_compute. reflexivity.
Defined.

(** * Further properties of the link rewriter *)

Lemma indexOf_Some c s i :
  indexOf c s = Some i → ∃ rest, drop i s = c :: rest.
Proof.
  revert i. induction s as [|d s IH]; intros i; simpl; [done |].
  destruct (N.eqb_spec d c) as [-> | Hne].
  - intros [= <-]. simpl. eauto.
  - destruct (indexOf c s) as [j|]; [| done].
    intros [= <-]. simpl. by apply IH.
Qed.

(** X13: for a link that does not start with [http], a [#] in the
    resolved path decides alone: the callback returns the path from its
    first [#] on, and the title index is not consulted.  In every case
    what the callback returns is empty or begins with [#]. *)
Theorem rewriteLink_fragment {I : Imports}
    (titles : Titles) (file : File) (link : str) :
  startsWith (lit "http") link = false →
  (∀ i, indexOf HASH (join (dirname (path file)) link) = Some i →
     rewriteLink titles file link = drop i (join (dirname (path file)) link))
  ∧ (rewriteLink titles file link = []
     ∨ head (rewriteLink titles file link) = Some HASH).
Proof.
  intros Hhttp. unfold rewriteLink. rewrite Hhttp.
  destruct (indexOf HASH (join (dirname (path file)) link)) as [i|] eqn:Hi.
  - destruct (indexOf_Some _ _ _ Hi) as [rest Hrest]. rewrite Hrest. simpl.
    split; [| by right]. intros j [= <-]. done.
  - split; [done |]. simpl.
    destruct (getTitle titles (join (dirname (path file)) link)) as [entry|];
      simpl; [| auto].
    destruct (gitHubLinkOf (Entry.title entry)); simpl; auto.
Qed.

Lemma rewriteLink_fragment_witness :
  startsWith (lit "http") (lit "../guide.md#top") = false
  ∧ rewriteLink (I := Sample.posix) noTitles More.api_index_md
      (lit "../guide.md#top") = lit "#top".
Proof.
  split; [reflexivity |].
  destruct (rewriteLink_fragment (I := Sample.posix) noTitles
              More.api_index_md (lit "../guide.md#top") eq_refl) as [Hfrag _].
  rewrite (Hfrag 14%nat) by (vm_compute; reflexivity).
  vm_compute. reflexivity.
Defined.

(** * The title and table-of-contents wrapper *)

Lemma startsWith_app p s : startsWith p (p ++ s) = true.
Proof. induction p as [|c p IH]; simpl; [done | by rewrite N.eqb_refl]. Qed.

Lemma includes_here p s : includes p (p ++ s) = true.
Proof.
  destruct (p ++ s) eqn:E; simpl; rewrite <- E, startsWith_app; done.
Qed.

Lemma includes_later p x s : includes p s = true → includes p (x ++ s) = true.
Proof.
  intros H. induction x as [|c x IH]; [done |].
  simpl. rewrite IH. apply orb_true_r.
Qed.

(** X14: with [toc] set, the text handed to doctoc holds the marker
    pair and ends with the content; a content that holds the marker pair
    already gets no second one; the result is doctoc's when it reports a
    change, and that text otherwise. *)
Theorem toc_marker_is_present {I : Imports} (this : Config) (content : str) :
  toc this = true →
  ∃ doc,
    includes TOC_TAG doc = true
    ∧ content `suffix_of` doc
    ∧ (includes TOC_TAG content = true →
       doc = (if truthy (default [] (title this))
              then heading1 (default [] (title this)) ++ [LF; LF]
              else []) ++ content)
    ∧ addGlobalTitleAndToc this content
      = (if (transform doc (tocLevel this)).1
         then (transform doc (tocLevel this)).2
         else doc).
Proof.
  intros Htoc. unfold addGlobalTitleAndToc. rewrite Htoc. cbn [negb]. cbn zeta.
  set (tagged := if negb (includes TOC_TAG content)
                 then TOC_TAG ++ [LF; LF] ++ content else content).
  assert (includes TOC_TAG tagged = true ∧ content `suffix_of` tagged
          ∧ (includes TOC_TAG content = true → tagged = content))
    as (Hinc & Hsuf & Hsame).
  { unfold tagged. destruct (includes TOC_TAG content) eqn:E; simpl.
    - done.
    - split; [first [done | apply includes_here] |]. split; [| done].
      exists (TOC_TAG ++ [LF; LF]). by rewrite <- app_assoc. }
  destruct (truthy (default [] (title this))).
  - exists (heading1 (default [] (title this)) ++ [LF; LF] ++ tagged).
    split; [| split; [| split; [| reflexivity]]].
    + rewrite app_assoc. by apply includes_later.
    + rewrite app_assoc. by apply suffix_app_r.
    + intros H. by rewrite (Hsame H), <- app_assoc.
  - exists tagged. split; [done |]. split; [done |]. split; [| done].
    intros H. by rewrite (Hsame H).
Qed.

Lemma toc_marker_is_present_witness :
  toc (More.withToc (Some (lit "Docs"))) = true
  ∧ ∃ doc,
      includes TOC_TAG doc = true
      ∧ lit "text" `suffix_of` doc
      ∧ addGlobalTitleAndToc (I := Sample.posix)
          (More.withToc (Some (lit "Docs"))) (lit "text") = doc.
Proof.
  split; [reflexivity |].
  destruct (toc_marker_is_present (I := Sample.posix)
              (More.withToc (Some (lit "Docs"))) (lit "text") eq_refl)
    as (doc & Hinc & Hsuf & _ & Hout).
  exists doc. split; [exact Hinc |]. split; [exact Hsuf |]. exact Hout.
Defined.

(** * Directory parts *)

Lemma split_nonempty c s : split c s ≠ [].
Proof.
  destruct s as [|d s]; simpl; [done |].
  destruct (d =? c)%N; [done |]. by destruct (split c s).
Qed.

Lemma joinWith_split c s : joinWith [c] (split c s) = s.
Proof.
  induction s as [|d s IH]; [done |]. simpl.
  destruct (N.eqb_spec d c) as [-> | Hne].
  - destruct (split c s) as [|w ws] eqn:E; [by apply split_nonempty in E |].
    simpl. by rewrite <- IH.
  - destruct (split c s) as [|w ws] eqn:E; [by apply split_nonempty in E |].
    rewrite <- IH. by destruct ws.
Qed.

Section DirPartFacts.
Context {I : Imports}.

Lemma cumulativeDirs_last cur part parts :
  truthy cur = true →
  last (cumulativeDirs cur (part :: parts))
  = Some (cur ++ sep :: joinWith [sep] (part :: parts)).
Proof.
  revert cur part. induction parts as [|next parts IH]; intros cur part Hcur.
  - simpl. unfold nextDir. by rewrite Hcur.
  - change (cumulativeDirs cur (part :: next :: parts))
      with (nextDir cur part
              :: cumulativeDirs (nextDir cur part) (next :: parts)).
    change (last (nextDir cur part
                    :: cumulativeDirs (nextDir cur part) (next :: parts)))
      with (last (cumulativeDirs (nextDir cur part) (next :: parts))).
    rewrite IH by (unfold nextDir; by destruct cur).
    unfold nextDir. rewrite Hcur.
    change (joinWith [sep] (part :: next :: parts))
      with (part ++ [sep] ++ joinWith [sep] (next :: parts)).
    by rewrite <- app_assoc.
Qed.

Lemma cumulativeDirs_split_last rel :
  head rel ≠ Some sep →
  last (cumulativeDirs [] (split sep rel)) = Some rel.
Proof.
  intros Hhead. pose proof (joinWith_split sep rel) as Hjoin.
  destruct rel as [|c rel]; [done |].
  simpl in Hhead. simpl in *.
  destruct (N.eqb_spec c sep) as [-> | Hne]; [done |].
  destruct (split sep rel) as [|w ws] eqn:E; [by apply split_nonempty in E |].
  destruct ws as [|next ws].
  - simpl in *. unfold nextDir. simpl. by rewrite Hjoin.
  - change (cumulativeDirs [] ((c :: w) :: next :: ws))
      with (nextDir [] (c :: w)
              :: cumulativeDirs (nextDir [] (c :: w)) (next :: ws)).
    change (last (nextDir [] (c :: w)
                    :: cumulativeDirs (nextDir [] (c :: w)) (next :: ws)))
      with (last (cumulativeDirs (nextDir [] (c :: w)) (next :: ws))).
    unfold nextDir at 1. simpl truthy. cbn iota. rewrite app_nil_l.
    rewrite cumulativeDirs_last by done.
    f_equal. rewrite <- Hjoin. reflexivity.
Qed.

End DirPartFacts.

(** X15: a file has no directory parts exactly when it lies in the
    root directory itself; such a file never gets directory titles: its
    own entry is all that [addTitle] records. *)
Theorem root_file_has_no_dir_parts {I : Imports}
    (this : Config) (titles : Titles) (file : File) :
  (getDirParts this file = [] ↔ dir this = dirname (path file))
  ∧ (dir this = dirname (path file) →
     addTitle this titles file
     = (entry ← titleOfFile this file (loopStart this noTitles);
        Ok (withEntry titles (path file) entry))).
Proof.
  split.
  - unfold getDirParts. case_decide as Hdir; [done |].
    split; [| done]. intros H. by apply split_nonempty in H.
  - intros Hdir. unfold addTitle, titleDirs, getDirParts.
    rewrite decide_True by done. simpl. by destruct (dirNameAsTitle this).
Qed.

Lemma root_file_has_no_dir_parts_witness :
  dir Sample.byName = dirname (Imports := Sample.posix) (path Sample.a_md)
  ∧ getDirParts (I := Sample.posix) Sample.byName Sample.a_md = []
  ∧ ∃ titles',
      addTitle (I := Sample.posix) Sample.byName noTitles Sample.a_md
      = Ok titles'
      ∧ visitedDirs titles' = ∅.
Proof.
  destruct (root_file_has_no_dir_parts (I := Sample.posix) Sample.byName
              noTitles Sample.a_md) as [Hparts Hadd].
  split; [reflexivity |]. split; [by apply Hparts |].
  rewrite Hadd by reflexivity. eexists. split; [vm_compute; reflexivity |].
  reflexivity.
Defined.

(** X16: when the relative directory of a file does not begin with the
    separator, the last directory that [addTitle] walks is that relative
    directory as a whole, and with [dirNameAsTitle] it is visited
    afterwards. *)
Theorem deepest_dir_is_relative_dir {I : Imports}
    (this : Config) (titles titles' : Titles) (file : File) :
  dir this ≠ dirname (path file) →
  head (relative (dir this) (dirname (path file))) ≠ Some sep →
  last (cumulativeDirs [] (getDirParts this file))
  = Some (relative (dir this) (dirname (path file)))
  ∧ (dirNameAsTitle this = true →
     addTitle this titles file = Ok titles' →
     relative (dir this) (dirname (path file)) ∈ visitedDirs titles').
Proof.
  intros Hdir Hhead.
  assert (last (cumulativeDirs [] (getDirParts this file))
          = Some (relative (dir this) (dirname (path file)))) as Hlast.
  { unfold getDirParts. rewrite decide_False by done.
    by apply cumulativeDirs_split_last. }
  split; [done |]. intros Hnames Hadd.
  apply (addTitle_visited this titles file titles' Hadd).
  right. split; [done |].
  apply last_Some in Hlast as [front ->]. apply elem_of_app. right. left.
Qed.

Lemma deepest_dir_is_relative_dir_witness :
  ∃ titles',
    dir Sample.byName ≠ dirname (Imports := Sample.posix) (path Sample.sub_b_md)
    ∧ addTitle (I := Sample.posix) Sample.byName noTitles Sample.sub_b_md
      = Ok titles'
    ∧ last (cumulativeDirs (H := Sample.posix) []
              (getDirParts (I := Sample.posix) Sample.byName Sample.sub_b_md))
      = Some (lit "sub")
    ∧ lit "sub" ∈ visitedDirs titles'.
Proof.
  destruct (addTitle (I := Sample.posix) Sample.byName noTitles
              Sample.sub_b_md) as [titles' | e] eqn:Hadd;
    [| vm_compute in Hadd; discriminate].
  exists titles'.
  assert (dir Sample.byName
          ≠ dirname (Imports := Sample.posix) (path Sample.sub_b_md)) as Hdir
    by (vm_compute; discriminate).
  destruct (deepest_dir_is_relative_dir (I := Sample.posix) Sample.byName
              noTitles titles' Sample.sub_b_md Hdir) as [Hlast Hvis].
  { vm_compute. discriminate. }
  split; [exact Hdir |]. split; [done |]. split; [exact Hlast |].
  apply (Hvis eq_refl Hadd).
Defined.

(** * The glob patterns *)

(** X17: the include patterns are never an empty list: a pattern list
    that is left out, empty, or the empty string gives the default
    pattern, a string gives a list of one, and an array is kept. *)
Theorem includeOf_never_empty (include : option (str + list str)) :
  includeOf include ≠ []
  ∧ (lengthOf (default (inr []) include) = 0 → includeOf include = [lit "**/*.md"])
  ∧ (∀ patterns, patterns ≠ [] → include = Some (inr patterns) →
       includeOf include = patterns)
  ∧ (∀ pattern, pattern ≠ [] → include = Some (inl pattern) →
       includeOf include = [pattern]).
Proof.
  unfold includeOf. split; [| split; [| split]].
  - destruct include as [[value | values] |]; simpl; [| | done].
    + by destruct value.
    + by destruct values.
  - by intros ->.
  - intros patterns Hne ->. simpl. by destruct patterns.
  - intros pattern Hne ->. simpl. by destruct pattern.
Qed.

(** * The comma-separated values of the command line *)

Lemma whitespace_not_comma c : Char.isWhiteSpace c = true → (c =? COMMA)%N = false.
Proof.
  intros H. destruct (N.eqb_spec c COMMA) as [-> |]; [| done].
  by vm_compute in H.
Qed.

Lemma splitCommas_no_comma afterComma cur pend s :
  COMMA ∉ cur → COMMA ∉ pend →
  Forall (λ value, COMMA ∉ value) (splitCommas afterComma cur pend s).
Proof.
  revert afterComma cur pend.
  induction s as [|c s IH]; intros afterComma cur pend Hcur Hpend; simpl.
  - constructor; [| constructor]. rewrite elem_of_app. tauto.
  - destruct (N.eqb_spec c COMMA) as [-> | Hne].
    + constructor; [done |]. apply IH; apply not_elem_of_nil.
    + destruct (Char.isWhiteSpace c).
      * destruct afterComma; apply IH; try apply not_elem_of_nil; [done |].
        intros [? | ?%list_elem_of_singleton]%elem_of_app; done.
      * apply IH; [| apply not_elem_of_nil].
        intros [? | [? | ?%list_elem_of_singleton]%elem_of_app]%elem_of_app;
          done.
Qed.

Lemma splitCommas_nonempty afterComma cur pend s :
  splitCommas afterComma cur pend s ≠ [].
Proof.
  revert afterComma cur pend. induction s as [|c s IH]; intros; simpl; [done |].
  destruct (c =? COMMA)%N; [done |].
  destruct (Char.isWhiteSpace c); [destruct afterComma |]; apply IH.
Qed.

(** X18: [splitStrings] gives no value for a flag that is missing or
    empty, at least one value otherwise, and never a value with a comma
    in it. *)
Theorem splitStrings_values (valuesCSV : option str) :
  (splitStrings valuesCSV = [] ↔ valuesCSV = None ∨ valuesCSV = Some [])
  ∧ Forall (λ value, COMMA ∉ value) (splitStrings valuesCSV).
Proof.
  unfold splitStrings. destruct valuesCSV as [[|c csv] |]; cbn [truthy].
  - split; [split; auto | constructor].
  - split.
    + split; [| by intros [? | ?]].
      intros H. by apply splitCommas_nonempty in H.
    + apply (splitCommas_no_comma false [] [] (c :: csv)); apply not_elem_of_nil.
  - split; [split; auto | constructor].
Qed.

Lemma splitCommas_value cur pend value rest :
  value ≠ [] → COMMA ∉ value →
  (∀ c, last value = Some c → Char.isWhiteSpace c = false) →
  splitCommas false cur pend (value ++ rest)
  = splitCommas false (cur ++ pend ++ value) [] rest.
Proof.
  revert cur pend. induction value as [|c value IH]; intros cur pend; [done |].
  intros _ Hcomma Hlast.
  assert ((c =? COMMA)%N = false) as Hc.
  { apply N.eqb_neq. intros ->. apply Hcomma. left. }
  assert (COMMA ∉ value) as Hcomma' by (intros ?; apply Hcomma; by right).
  simpl. rewrite Hc. destruct value as [|d value].
  - rewrite (Hlast c eq_refl). done.
  - assert (∀ e, last (d :: value) = Some e → Char.isWhiteSpace e = false)
      as Hlast' by (intros e He; by apply Hlast).
    destruct (Char.isWhiteSpace c).
    + rewrite IH by done. by rewrite <- !app_assoc.
    + rewrite IH by done. simpl. by rewrite <- !app_assoc.
Qed.

Lemma splitCommas_first afterComma value rest :
  csvValue value →
  splitCommas afterComma [] [] (value ++ rest)
  = match value with
    | [] => splitCommas afterComma [] [] rest
    | _ => splitCommas false value [] rest
    end.
Proof.
  intros (Hcomma & Hhead & Hlast). destruct value as [|c value]; [done |].
  assert ((c =? COMMA)%N = false) as Hc.
  { apply N.eqb_neq. intros ->. apply Hcomma. left. }
  simpl. rewrite Hc, (Hhead c eq_refl). destruct value as [|d value]; [done |].
  rewrite splitCommas_value; [done | done | |].
  - intros ?. apply Hcomma. by right.
  - intros e He. by apply Hlast.
Qed.

Lemma splitCommas_separator afterComma cur before after rest :
  Forall (λ c, Char.isWhiteSpace c = true) before →
  Forall (λ c, Char.isWhiteSpace c = true) after →
  (afterComma = true → cur = []) →
  splitCommas afterComma cur [] (csvSeparator before after ++ rest)
  = cur :: splitCommas true [] [] rest.
Proof.
  intros Hb Ha Hcur. unfold csvSeparator. rewrite <- !app_assoc.
  assert (∀ pend, (afterComma = true → pend = []) →
            splitCommas afterComma cur pend (before ++ [COMMA] ++ after ++ rest)
            = cur :: splitCommas true [] [] (after ++ rest)) as Hbefore.
  { induction Hb as [|c before Hc Hb IH]; intros pend Hpend; simpl.
    - done.
    - rewrite (whitespace_not_comma c Hc), Hc. destruct afterComma.
      + rewrite (Hcur eq_refl) in *. by apply (IH []).
      + by apply IH. }
  rewrite Hbefore by done. f_equal.
  clear Hbefore. induction Ha as [|c after Hc Ha IH]; simpl; [done |].
  by rewrite (whitespace_not_comma c Hc), Hc.
Qed.

Lemma splitCommas_joined afterComma before after value values :
  Forall (λ c, Char.isWhiteSpace c = true) before →
  Forall (λ c, Char.isWhiteSpace c = true) after →
  Forall csvValue (value :: values) →
  splitCommas afterComma [] []
    (joinWith (csvSeparator before after) (value :: values))
  = value :: values.
Proof.
  intros Hb Ha Hall. revert afterComma value Hall.
  induction values as [|next values IH]; intros afterComma value Hall.
  - inversion Hall as [|?? Hv _]; subst. simpl.
    rewrite <- (app_nil_r value) at 1.
    rewrite splitCommas_first by done.
    destruct value; simpl; [done | by rewrite app_nil_r].
  - inversion Hall as [|?? Hv Hrest]; subst.
    change (joinWith (csvSeparator before after) (value :: next :: values))
      with (value ++ csvSeparator before after
              ++ joinWith (csvSeparator before after) (next :: values)).
    rewrite splitCommas_first by done.
    destruct value as [|c value].
    + rewrite splitCommas_separator by done. by rewrite IH.
    + rewrite splitCommas_separator by done. by rewrite IH.
Qed.

(** X19: values that hold no comma and no white space at their ends
    come back from [splitStrings] as they were joined, whatever white
    space surrounds the commas. *)
Theorem splitStrings_of_joined (before after : str) (values : list str) :
  Forall (λ c, Char.isWhiteSpace c = true) before →
  Forall (λ c, Char.isWhiteSpace c = true) after →
  Forall csvValue values →
  values ≠ [] → values ≠ [[]] →
  splitStrings (Some (joinWith (csvSeparator before after) values)) = values.
Proof.
  intros Hb Ha Hall Hne Hne'. destruct values as [|value values]; [done |].
  unfold splitStrings.
  assert (truthy (joinWith (csvSeparator before after) (value :: values))
          = true) as ->.
  { destruct values as [|next values].
    - simpl. by destruct value.
    - change (joinWith (csvSeparator before after) (value :: next :: values))
        with (value ++ csvSeparator before after
                ++ joinWith (csvSeparator before after) (next :: values)).
      unfold csvSeparator. destruct value; [| done]. by destruct before. }
  by apply splitCommas_joined.
Qed.

Lemma splitStrings_of_joined_witness :
  Forall (λ c, Char.isWhiteSpace c = true) []
  ∧ Forall (λ c, Char.isWhiteSpace c = true) [SPACE]
  ∧ Forall csvValue [lit "**/*.md"; lit "my notes/*.txt"]
  ∧ splitStrings (Some (lit "**/*.md, my notes/*.txt"))
    = [lit "**/*.md"; lit "my notes/*.txt"].
Proof.
  assert (Forall (λ c, Char.isWhiteSpace c = true) [SPACE]) as Ha
    by (repeat constructor).
  assert (Forall csvValue [lit "**/*.md"; lit "my notes/*.txt"]) as Hall.
  { repeat constructor; try (intros c [= <-]; reflexivity);
      intros Hin; vm_compute in Hin;
      repeat (apply elem_of_cons in Hin as [Hin | Hin]; [discriminate |]);
      by apply elem_of_nil in Hin. }
  split; [constructor |]. split; [exact Ha |]. split; [exact Hall |].
  apply (splitStrings_of_joined [] [SPACE]
           [lit "**/*.md"; lit "my notes/*.txt"]);
    [constructor | exact Ha | exact Hall | discriminate | discriminate].
Defined.

(** * Runs without titles *)



